(** * zoneServer.py: the zone server of privacy_zones

    A shallow embedding of [ZoneServer] (src/privacy_zones/scripts/zoneServer.py)
    and the properties its specification states about it.

    The server is a Python object with four pieces of state
    ([zone_controls], [zones], [current_zones], [previous_zones]) whose
    methods call ROS services (the PEAC device and location registry, the two
    localization services, the tf listener) and publish on the [transition]
    topic.  A method is modelled as a function from the object and the state
    of the outside world to a result or an exception, the new object and
    world, and the list of service calls and publications it made, in order. *)

From stdpp Require Import base strings countable gmap sets list.

Local Open Scope Z_scope.

(** ** Messages and configuration records *)

(** Identifiers of the PEAC bridge are numbers; float64 payloads ([numVal],
    coordinates, covariances) enter no arithmetic in the server and are
    carried as integers. *)
Abbreviation DeviceId := Z (only parsing).
Abbreviation ControlId := Z (only parsing).
Abbreviation LocationId := Z (only parsing).

(** One control of [GetDeviceInfo(...).controls]: [cc.controlId], [cc.numVal]. *)
Record DeviceControl := { cc_controlId : ControlId; cc_numVal : Z }.

(** One entry of the zone-control YAML file: the dict with the keys
    ['controlId'], ['deviceId'] and ['control']. *)
Record ControlDesc := {
  controlId : ControlId;
  deviceId : DeviceId;
  control_name : string   (* the key 'control' *)
}.

(** privacy_zones/ZoneControl *)
Record ZoneControl := {
  zc_zone : string;
  zc_controlId : ControlId;
  zc_deviceId : DeviceId;
  zc_name : string;
  zc_numVal : Z
}.

Record DevicesInZoneRequest := { req_zone : string }.
Record DevicesInZoneResponse := { controls : list ZoneControl }.

(** peac_bridge: a device of [ListDevices(...).devices] and a location of
    [ListLocations().locations]. *)
Record Device := { dev_deviceId : DeviceId }.
Record Location := { locationId : LocationId; loc_name : string }.

(** geometry_msgs *)
Record Header := { seq : Z; stamp : Z; frame_id : string }.
Record Point := { px : Z; py : Z; pz : Z }.
Record Quaternion := { qx : Z; qy : Z; qz : Z; qw : Z }.
Record Pose := { position : Point; orientation : Quaternion }.
Record PoseStamped := { ps_header : Header; ps_pose : Pose }.
Record PoseWithCovariance := { pose : Pose; covariance : list Z }.
Record PoseWithCovarianceStamped := {
  pwc_header : Header;
  pwc_pose : PoseWithCovariance
}.
Record Twist := { linear : Point; angular : Point }.
Record TwistWithCovariance := { twist : Twist; twist_covariance : list Z }.
(** nav_msgs/Odometry *)
Record Odometry := {
  odom_header : Header;
  child_frame_id : string;
  odom_pose : PoseWithCovariance;
  odom_twist : TwistWithCovariance
}.

Record PolygonStamped := { poly_header : Header; polygon : list (Z * Z) }.
Record GlobalLocalizationPolygonRequest := { poly : PolygonStamped }.
Record LocalizeInZoneRequest := { lreq_zone : string }.
Record LocalizeInZoneResponse := mkLocalizeInZoneResponse {}.

(** ** Zones

    [privacy_zones.map_geometry] is not part of the sources at hand; the
    server uses of it a zone's [name], [to_msg()] and [gen.frame_id], and of
    the [Zones] container the dict interface and [in_which]. *)

(** Modelled from the spec: [MapGeometry], of which only the frame identifier
    is read ([zone.gen.frame_id]). *)
Record MapGeometry := { geom_frame_id : string }.

(** Modelled from the spec: a [Zone] is a unique name, the ordered vertices
    of its polygon and its coordinate frame. *)
Record Zone := {
  name : string;
  vertices : list (Z * Z);
  gen : MapGeometry
}.

(** Modelled from the spec: the message [zone.to_msg()] carries the zone's
    name and, in its field [zone], the polygon of the zone's vertices. *)
Record ZoneMsg := { msg_name : string; msg_zone : list (Z * Z) }.
Definition to_msg (z : Zone) : ZoneMsg :=
  {| msg_name := name z; msg_zone := vertices z |}.

(** Modelled from the spec: [Zones] is the name-indexed dict of the zones
    together with the containment query [in_which], whose geometry the
    server treats as a black box. *)
Record Zones := {
  zone_dict : gmap string Zone;
  in_which : Z * Z → list Zone
}.

#[global] Instance MapGeometry_eq_dec : EqDecision MapGeometry.
Proof. solve_decision. Defined.
#[global] Instance Zone_eq_dec : EqDecision Zone.
Proof. solve_decision. Defined.
#[global] Instance Zone_countable : Countable Zone.
Proof.
  refine (inj_countable'
    (λ z, (name z, vertices z, geom_frame_id (gen z)))
    (λ t, {| name := t.1.1; vertices := t.1.2;
             gen := {| geom_frame_id := t.2 |} |}) _).
  by intros [? ? []].
Defined.

(** Modelled from the spec: a membership is a set of zones, and zones are
    the same member when they have the same name.  [set_difference xs ys] is
    [set(xs) - set(ys)] as a [for] loop goes through it: one zone of [xs] for
    each name of [xs] that is no name of [ys].  The order in which Python
    iterates a set follows the hashes of its members and is not fixed by the
    language; it is left to the runtime, of which only this is known. *)
Class SetOrder := {
  set_difference : list Zone → list Zone → list Zone;
  set_difference_names xs ys :
    name <$> set_difference xs ys ≡ₚ
    elements ((list_to_set (name <$> xs) : gset string) ∖
              list_to_set (name <$> ys));
  set_difference_zones xs ys z : z ∈ set_difference xs ys → z ∈ xs
}.

(** privacy_zones/Transition *)
Inductive Action := ENTER | EXIT.
Record Transition := {
  action : Action;
  zone : ZoneMsg;
  peac_locations : list Location
}.

#[global] Instance Action_eq_dec : EqDecision Action.
Proof. solve_decision. Defined.

(** privacy_zones/GetZoneLocations: an empty request, and a response of two
    lists read in parallel. *)
Record GetZoneLocationsRequest := mkGetZoneLocationsRequest {}.
Record GetZoneLocationsResponse := {
  resp_zones : list ZoneMsg;
  resp_locations : list Location
}.

(** ** Exceptions, results and the trace of outside calls *)

Inductive Key := KStr (s : string) | KInt (n : Z).

Inductive Exn :=
| KeyError (k : Key)                (* dict[...] on a missing key *)
| ServiceException (msg : string)   (* a rospy.ServiceProxy call failed *)
| TransformException (msg : string) (* tf could not transform the pose *).

Definition Res (A : Type) : Type := Exn + A.

(** What the server did to the outside world: each service call with the
    answer it got, and each message published on [transition]. *)
Inductive Effect :=
| GetDeviceInfo (d : DeviceId) (r : Res (list DeviceControl))
| ListLocations (r : Res (list Location))
| ListDevices (l : LocationId) (r : Res (list Device))
| GlobalLocalization (r : Res unit)
| PolygonLocalization (req : GlobalLocalizationPolygonRequest) (r : Res unit)
| Publish (t : Transition).

(** The service proxies and the tf listener the server holds.  Each call reads
    and may change the state of the outside world. *)
Class Services (Env : Type) := {
  get_device_info : DeviceId → Env → Res (list DeviceControl) * Env;
  list_locations : Env → Res (list Location) * Env;
  list_devices : LocationId → Env → Res (list Device) * Env;
  global_localization : Env → Res unit * Env;
  polygon_localization : GlobalLocalizationPolygonRequest → Env → Res unit * Env;
  transformPose : string → PoseStamped → Env → Res PoseStamped
}.

(** ** The server object *)

Record ZoneServer := {
  zone_controls : gmap string (list ControlDesc);
  zones : Zones;
  current_zones : list Zone;
  previous_zones : list Zone;
  last_transition_time : Z
}.

(** [ZoneServer.__init__], after the configuration files are read. *)
Definition init (zone_controls : gmap string (list ControlDesc)) (zones : Zones)
    : ZoneServer :=
  {| zone_controls := zone_controls; zones := zones;
     current_zones := []; previous_zones := []; last_transition_time := 0 |}.

(** ** Methods as state transformers *)

Record Sys (Env : Type) := { self : ZoneServer; env : Env }.
Arguments self {Env} _.
Arguments env {Env} _.

(** A method: result or exception, new state, calls made. *)
Definition M (Env A : Type) : Type := Sys Env → Res A * Sys Env * list Effect.

Definition result_of {Env A} (out : Res A * Sys Env * list Effect) : Res A := out.1.1.
Definition state_of {Env A} (out : Res A * Sys Env * list Effect) : Sys Env := out.1.2.
Definition trace_of {Env A} (out : Res A * Sys Env * list Effect) : list Effect := out.2.

#[global] Instance M_ret {Env} : MRet (M Env) := λ A x s, (inr x, s, []).
#[global] Instance M_bind {Env} : MBind (M Env) := λ A B f m s,
  match m s with
  | (inl e, s1, t1) => (inl e, s1, t1)
  | (inr a, s1, t1) =>
      match f a s1 with (r, s2, t2) => (r, s2, t1 ++ t2) end
  end.

Section server.
Context {Env : Type} `{!Services Env} {SetOrder0 : SetOrder}.

Definition raise {A} (e : Exn) : M Env A := λ s, (inl e, s, []).
Definition get_self : M Env ZoneServer := λ s, (inr (self s), s, []).
Definition put_self (z : ZoneServer) : M Env unit :=
  λ s, (inr tt, {| self := z; env := env s |}, []).

(** A service call: the world answers and moves on, the call is recorded. *)
Definition call {A} (f : Env → Res A * Env) (ev : Res A → Effect) : M Env A :=
  λ s, match f (env s) with
       | (r, e') => (r, {| self := self s; env := e' |}, [ev r])
       end.

(** [self.tfl.transformPose(target, msg)] reads the tf tree. *)
Definition tfl_transformPose (target : string) (msg : PoseStamped)
    : M Env PoseStamped :=
  λ s, (transformPose target msg (env s), s, []).

Definition publish (t : Transition) : M Env unit :=
  λ s, (inr tt, s, [Publish t]).

Fixpoint for_each {A} (xs : list A) (body : A → M Env unit) : M Env unit :=
  match xs with
  | [] => mret tt
  | x :: xs' => body x ;; for_each xs' body
  end.

(** *** handle_list_devices *)

(** [for cc in info: control_cache[cc.controlId] = cc] *)
Definition cache_controls (control_cache : gmap Z DeviceControl)
    (info : list DeviceControl) : gmap Z DeviceControl :=
  foldl (λ cache cc, <[cc_controlId cc := cc]> cache) control_cache info.

(** [control_cache[k]] *)
Definition cache_getitem (control_cache : gmap Z DeviceControl) (k : ControlId)
    : M Env DeviceControl :=
  match control_cache !! k with
  | Some cc => mret cc
  | None => raise (KeyError (KInt k))
  end.

(** One iteration of [for control in ...], on the local variables
    [control_cache] and [zcs]. *)
Definition list_devices_body (zone : string) (control : ControlDesc)
    (locals : gmap Z DeviceControl * list ZoneControl)
    : M Env (gmap Z DeviceControl * list ZoneControl) :=
  let '(control_cache, zcs) := locals in
  control_cache ←
    (if decide (is_Some (control_cache !! controlId control))
     then mret control_cache
     else info ← call (get_device_info (deviceId control))
                      (GetDeviceInfo (deviceId control));
          mret (cache_controls control_cache info));
  cc ← cache_getitem control_cache (controlId control);
  mret (control_cache,
        zcs ++ [{| zc_zone := zone;
                   zc_controlId := controlId control;
                   zc_deviceId := deviceId control;
                   zc_name := control_name control;
                   zc_numVal := cc_numVal cc |}]).

(** The loop over the descriptors still to do, then [DevicesInZoneResponse(zcs)]. *)
Fixpoint list_devices_loop (zone : string) (todo : list ControlDesc)
    (locals : gmap Z DeviceControl * list ZoneControl)
    : M Env DevicesInZoneResponse :=
  match todo with
  | [] => mret {| controls := locals.2 |}
  | control :: todo' =>
      locals' ← list_devices_body zone control locals;
      list_devices_loop zone todo' locals'
  end.

(** [with self.list_devices_lock: ...]: within one thread of control the lock
    is taken and released around the body; what it does to several callers
    is the subject of the section on the lock below. *)
Definition handle_list_devices (req : DevicesInZoneRequest)
    : M Env DevicesInZoneResponse :=
  me ← get_self;
  list_devices_loop (req_zone req)
    (default [] (zone_controls me !! req_zone req)) (∅, []).

(** *** get_peac_locations *)

(** The duck-typed argument of [get_peac_locations]: a name or a zone. *)
Inductive ZoneRef := ByName (s : string) | Resolved (z : Zone).

Definition zone_device_ids (devices : DevicesInZoneResponse) : gset Z :=
  list_to_set (zc_deviceId <$> controls devices).
Definition loc_device_ids (loc_devices : list Device) : gset Z :=
  list_to_set (dev_deviceId <$> loc_devices).

Fixpoint match_locations (device_ids : gset Z) (todo : list Location)
    (matched_locations : list Location) : M Env (list Location) :=
  match todo with
  | [] => mret matched_locations
  | location :: todo' =>
      loc_devices ← call (list_devices (locationId location))
                         (ListDevices (locationId location));
      match_locations device_ids todo'
        (if decide (device_ids ∩ loc_device_ids loc_devices ≠ ∅)
         then matched_locations ++ [location]
         else matched_locations)
  end.

(** [name = zone; if type(zone) != str: name = zone.name] *)
Definition zone_ref_name (zone : ZoneRef) : string :=
  match zone with ByName s => s | Resolved z => name z end.

Definition get_peac_locations (zone : ZoneRef) : M Env (list Location) :=
  let name := zone_ref_name zone in
  devices ← handle_list_devices {| req_zone := name |};
  let device_ids := zone_device_ids devices in
  locations ← call list_locations ListLocations;
  match_locations device_ids locations [].

(** *** get_zone_locations *)

(** [for loc in locs: resp.zones.append(zone_info.to_msg());
    resp.locations.append(loc)] *)
Definition append_locations (zone_info : Zone) (locs : list Location)
    (resp : GetZoneLocationsResponse) : GetZoneLocationsResponse :=
  foldl (λ resp loc, {| resp_zones := resp_zones resp ++ [to_msg zone_info];
                        resp_locations := resp_locations resp ++ [loc] |})
        resp locs.

(** The loop over [self.zones.iteritems()], from the items still to do. *)
Fixpoint zone_locations_loop (todo : list (string * Zone))
    (resp : GetZoneLocationsResponse) : M Env GetZoneLocationsResponse :=
  match todo with
  | [] => mret resp
  | (zone, zone_info) :: todo' =>
      locs ← get_peac_locations (ByName zone);
      zone_locations_loop todo' (append_locations zone_info locs resp)
  end.

(** The items of the dict come in the order the dict gives. *)
Definition get_zone_locations (req : GetZoneLocationsRequest)
    : M Env GetZoneLocationsResponse :=
  me ← get_self;
  zone_locations_loop (map_to_list (zone_dict (zones me)))
    {| resp_zones := []; resp_locations := [] |}.

(** *** check_transition and the pose callbacks *)

Definition transition_msg (a : Action) (zone : Zone) : M Env unit :=
  locs ← get_peac_locations (Resolved zone);
  publish {| action := a; zone := to_msg zone; peac_locations := locs |}.

(** The two [for] loops go through [set(...) - set(...)] in the order of the
    runtime, [set_difference]. *)
Definition check_transition : M Env unit :=
  me ← get_self;
  if bool_decide (current_zones me ≠ []) then
    let entered_zones := set_difference (current_zones me) (previous_zones me) in
    let exited_zones := set_difference (previous_zones me) (current_zones me) in
    for_each exited_zones (transition_msg EXIT);;
    for_each entered_zones (transition_msg ENTER)
  else mret tt.

Definition set_previous_zones (zs : list Zone) : M Env unit :=
  me ← get_self;
  put_self {| zone_controls := zone_controls me; zones := zones me;
              current_zones := current_zones me; previous_zones := zs;
              last_transition_time := last_transition_time me |}.
Definition set_current_zones (zs : list Zone) : M Env unit :=
  me ← get_self;
  put_self {| zone_controls := zone_controls me; zones := zones me;
              current_zones := zs; previous_zones := previous_zones me;
              last_transition_time := last_transition_time me |}.

(** [msg.header.stamp = rospy.Time(0)] *)
Definition restamp (msg : PoseStamped) : PoseStamped :=
  {| ps_header := {| seq := seq (ps_header msg); stamp := 0;
                     frame_id := frame_id (ps_header msg) |};
     ps_pose := ps_pose msg |}.

(** [Point(msg_trans.pose.position.x, msg_trans.pose.position.y)] *)
Definition pose_point (msg_trans : PoseStamped) : Z * Z :=
  (px (position (ps_pose msg_trans)), py (position (ps_pose msg_trans))).

Definition pose_cb (msg : PoseStamped) : M Env unit :=
  let msg := restamp msg in
  msg_trans ← tfl_transformPose "map" msg;
  let pt := pose_point msg_trans in
  me ← get_self;
  let within_zones := in_which (zones me) pt in
  if bool_decide (within_zones ≠ []) then
    set_previous_zones (current_zones me);;
    set_current_zones within_zones;;
    check_transition
  else mret tt.

Definition pose_with_cov_cb (msg : PoseWithCovarianceStamped) : M Env unit :=
  pose_cb {| ps_header := pwc_header msg; ps_pose := pose (pwc_pose msg) |}.

Definition odom_cb (msg : Odometry) : M Env unit :=
  pose_cb {| ps_header := odom_header msg; ps_pose := pose (odom_pose msg) |}.

(** *** localize_in_zone *)

(** [self.zones[k]] *)
Definition zones_getitem (zs : Zones) (k : string) : M Env Zone :=
  match zone_dict zs !! k with
  | Some z => mret z
  | None => raise (KeyError (KStr k))
  end.

(** The request that reaches the service: [req] holds [poly_stamped] itself,
    so the polygon and the frame assigned after [req] is built are in it. *)
Definition polygon_request (zone : Zone) : GlobalLocalizationPolygonRequest :=
  let zone_poly := msg_zone (to_msg zone) in
  {| poly := {| poly_header := {| seq := 0; stamp := 0;
                                  frame_id := geom_frame_id (gen zone) |};
                polygon := zone_poly |} |}.

(** [print zone_req.zone] writes to the console and is left out. *)
Definition localize_in_zone (zone_req : LocalizeInZoneRequest)
    : M Env LocalizeInZoneResponse :=
  (if decide (lreq_zone zone_req = "NONE")
   then call global_localization GlobalLocalization
   else me ← get_self;
        zone ← zones_getitem (zones me) (lreq_zone zone_req);
        let req := polygon_request zone in
        call (polygon_localization req) (PolygonLocalization req));;
  mret mkLocalizeInZoneResponse.

End server.

(** ** Observations on runs *)

(** The [GetDeviceInfo] calls of a trace: the devices asked for, in order. *)
Definition device_queries (t : list Effect) : list DeviceId :=
  omap (λ ev, match ev with GetDeviceInfo d _ => Some d | _ => None end) t.

(** The zone control appended for a descriptor whose control is [cc]. *)
Definition zone_control (zone : string) (c : ControlDesc) (cc : DeviceControl)
    : ZoneControl :=
  {| zc_zone := zone; zc_controlId := controlId c; zc_deviceId := deviceId c;
     zc_name := control_name c; zc_numVal := cc_numVal cc |}.

(** A call to the device registry that was answered. *)
Definition answered (ev : Effect) : Prop :=
  match ev with GetDeviceInfo _ (inr _) => True | _ => False end.

(** The messages a trace published, and their (action, zone) pairs. *)
Definition published (t : list Effect) : list Transition :=
  omap (λ ev, match ev with Publish tr => Some tr | _ => None end) t.
Definition transitions (t : list Effect) : list (Action * ZoneMsg) :=
  (λ tr, (action tr, zone tr)) <$> published t.
Arguments published : simpl never.
Arguments transitions : simpl never.

(** The events a loop over [zs] is to publish. *)
Definition events (a : Action) (zs : list Zone) : list (Action * ZoneMsg) :=
  (λ z, (a, to_msg z)) <$> zs.
Arguments events : simpl never.

(** A run that published [got] of the events [expected]: all of them when it
    returned, and those before the zone whose correlation raised otherwise. *)
Definition emitted {A} (r : Res A) (got expected : list (Action * ZoneMsg)) : Prop :=
  match r with
  | inr _ => got = expected
  | inl _ => ∃ ev rest, expected = got ++ ev :: rest
  end.

(** The location correlations of the zones [zs], made one after the other
    from the state [s] until one raises: the number of zones whose
    correlation returned, and the state the last correlation made left. *)
Fixpoint correlate `{!Services Env} (zs : list Zone) (s : Sys Env)
    : nat * Sys Env :=
  match zs with
  | [] => (0%nat, s)
  | z :: zs' =>
      match get_peac_locations (Resolved z) s with
      | (inl _, s1, _) => (0%nat, s1)
      | (inr _, s1, _) =>
          match correlate zs' s1 with (n, s2) => (S n, s2) end
      end
  end.
Definition correlated `{!Services Env} (zs : list Zone) (s : Sys Env) : nat :=
  (correlate zs s).1.

(** The server object after the two assignments of [pose_cb]. *)
Definition moved_to (me : ZoneServer) (within_zones : list Zone) : ZoneServer :=
  {| zone_controls := zone_controls me; zones := zones me;
     current_zones := within_zones; previous_zones := current_zones me;
     last_transition_time := last_transition_time me |}.

(** The membership [pose_cb] computes for a message, when tf can transform it. *)
Definition membership_of `{!Services Env} (s : Sys Env) (msg : PoseStamped)
    : Res (list Zone) :=
  match transformPose "map" (restamp msg) (env s) with
  | inl e => inl e
  | inr msg_trans => inr (in_which (zones (self s)) (pose_point msg_trans))
  end.

(** The transport delivers the messages one after the other; an exception
    raised by a callback is logged by the transport and the next message is
    delivered. *)
Fixpoint deliver `{!Services Env} {SetOrder0 : SetOrder} (msgs : list PoseStamped) (s : Sys Env)
    : Sys Env * list Effect :=
  match msgs with
  | [] => (s, [])
  | msg :: msgs' =>
      match pose_cb msg s with
      | (_, s1, t1) =>
          match deliver msgs' s1 with (s2, t2) => (s2, t1 ++ t2) end
      end
  end.

(** The distinct control ids of the descriptors configured for a zone. *)
Definition control_ids (me : ZoneServer) (req : DevicesInZoneRequest) : gset Z :=
  list_to_set (controlId <$> default [] (zone_controls me !! req_zone req)).

(** The descriptor a zone control was made from. *)
Definition zc_descriptor (zc : ZoneControl) : ControlDesc :=
  {| controlId := zc_controlId zc; deviceId := zc_deviceId zc;
     control_name := zc_name zc |}.

(** The control ids of an answer of the device registry. *)
Definition reported_ids (info : list DeviceControl) : list ControlId :=
  cc_controlId <$> info.

(** In the trace [t], the device registry answered with a control of id [k]
    and value [v]. *)
Definition reported (t : list Effect) (k : ControlId) (v : Z) : Prop :=
  ∃ d info cc, GetDeviceInfo d (inr info) ∈ t ∧ cc ∈ info ∧
               cc_controlId cc = k ∧ cc_numVal cc = v.

(** The [ListDevices] calls of a trace: the locations asked for, in order. *)
Definition location_queries (t : list Effect) : list LocationId :=
  omap (λ ev, match ev with ListDevices l _ => Some l | _ => None end) t.

(** The (zone, location) pairs of a response, read in parallel. *)
Definition zone_pairs (resp : GetZoneLocationsResponse)
    : list (ZoneMsg * Location) :=
  zip (resp_zones resp) (resp_locations resp).

(** The pair [p] is a zone of [items] that has configured controls, with a
    location the registry listed in the trace [t]. *)
Definition pair_of (me : ZoneServer) (t : list Effect)
    (items : list (string * Zone)) (p : ZoneMsg * Location) : Prop :=
  ∃ k z, (k, z) ∈ items ∧ p.1 = to_msg z ∧
         default [] (zone_controls me !! k) ≠ [] ∧
         ∃ locs, ListLocations (inr locs) ∈ t ∧ p.2 ∈ locs.

(** In the trace [t], the registry answered that the location [l] holds a
    device of [ids]. *)
Definition matched_in (t : list Effect) (ids : gset Z) (l : Location) : Prop :=
  ∃ devs, ListDevices (locationId l) (inr devs) ∈ t ∧
          ids ∩ loc_device_ids devs ≠ ∅.

(** The locations of the message [tr] were listed by the registry in the
    trace [t], which also answered, for each, that it holds a device
    configured for the zone of the message. *)
Definition payload_sound (me : ZoneServer) (t : list Effect) (tr : Transition)
    : Prop :=
  Forall (λ l, (∃ locs, ListLocations (inr locs) ∈ t ∧ l ∈ locs) ∧
               matched_in t (list_to_set (deviceId <$>
                 default [] (zone_controls me !! msg_name (zone tr)))) l)
         (peac_locations tr).

(** The distinct control ids of the zone thread [i] asks for, of the requests
    [reqs]; none for a thread without a request. *)
Definition budget (me : ZoneServer) (reqs : list DevicesInZoneRequest) (i : nat)
    : nat :=
  from_option (λ req, size (control_ids me req)) 0%nat (reqs !! i).

Section outcomes.
Context {Env : Type} `{!Services Env}.

(** An operation that keeps the server object and publishes nothing. *)
Definition quiet {A} (m : M Env A) : Prop :=
  ∀ s, self (state_of (m s)) = self s ∧ published (trace_of (m s)) = [].

(** The outcomes of one iteration. *)
Inductive body_outcome (zone : string) (c : ControlDesc)
    (cache : gmap Z DeviceControl) (zcs : list ZoneControl) (s : Sys Env)
    : Res (gmap Z DeviceControl * list ZoneControl) * Sys Env * list Effect → Prop :=
| body_hit cc :
    cache !! controlId c = Some cc →
    body_outcome zone c cache zcs s
      (inr (cache, zcs ++ [zone_control zone c cc]), s, [])
| body_call_failed e env' :
    cache !! controlId c = None →
    get_device_info (deviceId c) (env s) = (inl e, env') →
    body_outcome zone c cache zcs s
      (inl e, {| self := self s; env := env' |},
       [GetDeviceInfo (deviceId c) (inl e)])
| body_not_reported info env' :
    cache !! controlId c = None →
    get_device_info (deviceId c) (env s) = (inr info, env') →
    cache_controls cache info !! controlId c = None →
    body_outcome zone c cache zcs s
      (inl (KeyError (KInt (controlId c))), {| self := self s; env := env' |},
       [GetDeviceInfo (deviceId c) (inr info)])
| body_fetched info env' cc :
    cache !! controlId c = None →
    get_device_info (deviceId c) (env s) = (inr info, env') →
    cache_controls cache info !! controlId c = Some cc →
    body_outcome zone c cache zcs s
      (inr (cache_controls cache info, zcs ++ [zone_control zone c cc]),
       {| self := self s; env := env' |},
       [GetDeviceInfo (deviceId c) (inr info)]).

End outcomes.

(** ** The lock

    [handle_list_devices] runs in the threads of the transport.  A thread is
    before its [with self.list_devices_lock], inside the loop, or has
    returned; the scheduler picks a thread and it takes one step: taking the
    lock if it is free, one iteration of the loop, or leaving the block (by
    returning or by an exception), which releases the lock.  The lock is
    re-entrant, but no thread asks for it while holding it. *)

Inductive Pc :=
| AtLock
| InLoop (todo : list ControlDesc) (locals : gmap Z DeviceControl * list ZoneControl)
| Done (r : Res DevicesInZoneResponse).

Record Pool (Env : Type) := {
  threads : list Pc;
  lock : option nat;
  shared : Sys Env;
  log : list Effect
}.
Arguments threads {Env} _.
Arguments lock {Env} _.
Arguments shared {Env} _.
Arguments log {Env} _.

Section lock_model.
Context {Env : Type} `{!Services Env}.
(** Thread [i] serves the request [reqs !! i]. *)
Variable reqs : list DevicesInZoneRequest.

Definition step (i : nat) (p : Pool Env) : Pool Env :=
  match reqs !! i, threads p !! i with
  | Some req, Some AtLock =>
      match lock p with
      | None =>
          {| threads := <[i := InLoop (default [] (zone_controls (self (shared p))
                                                     !! req_zone req)) (∅, [])]>
                          (threads p);
             lock := Some i; shared := shared p; log := log p |}
      | Some _ => p
      end
  | Some req, Some (InLoop [] locals) =>
      {| threads := <[i := Done (inr {| controls := locals.2 |})]> (threads p);
         lock := None; shared := shared p; log := log p |}
  | Some req, Some (InLoop (control :: todo) locals) =>
      match list_devices_body (req_zone req) control locals (shared p) with
      | (inl e, s1, t1) =>
          {| threads := <[i := Done (inl e)]> (threads p);
             lock := None; shared := s1; log := log p ++ t1 |}
      | (inr locals', s1, t1) =>
          {| threads := <[i := InLoop todo locals']> (threads p);
             lock := lock p; shared := s1; log := log p ++ t1 |}
      end
  | _, _ => p
  end.

Definition run (sched : list nat) (p : Pool Env) : Pool Env :=
  foldl (λ p i, step i p) p sched.

(** All threads about to enter, the lock free. *)
Definition pool0 (s0 : Sys Env) : Pool Env :=
  {| threads := replicate (length reqs) AtLock; lock := None;
     shared := s0; log := [] |}.

(** [hist] lists threads with their results: invoked one after the other in
    that order from [s0], the requests give these results, end in [sf] and
    make the calls [tf]. *)
Fixpoint serialized (hist : list (nat * Res DevicesInZoneResponse))
    (s0 sf : Sys Env) (tf : list Effect) : Prop :=
  match hist with
  | [] => sf = s0 ∧ tf = []
  | (i, r) :: hist' =>
      ∃ req s1 t1 t2,
        reqs !! i = Some req ∧ handle_list_devices req s0 = (r, s1, t1) ∧
        serialized hist' s1 sf t2 ∧ tf = t1 ++ t2
  end.

Definition extend {A} (t : list Effect) (out : Res A * Sys Env * list Effect)
    : Res A * Sys Env * list Effect :=
  (out.1.1, out.1.2, t ++ out.2).

(** What holds of every pool the scheduler can reach from [pool0 s0]. *)
Definition lock_inv (s0 : Sys Env) (p : Pool Env) : Prop :=
  ∃ hist sf tf,
    NoDup hist.*1 ∧
    serialized hist s0 sf tf ∧
    (∀ i r, threads p !! i = Some (Done r) ↔ (i, r) ∈ hist) ∧
    match lock p with
    | None =>
        shared p = sf ∧ log p = tf ∧
        ∀ i todo locals, threads p !! i ≠ Some (InLoop todo locals)
    | Some j =>
        ∃ req todo locals,
          reqs !! j = Some req ∧
          threads p !! j = Some (InLoop todo locals) ∧
          (∀ i todo' locals', threads p !! i = Some (InLoop todo' locals') → i = j) ∧
          extend (log p) (list_devices_loop (req_zone req) todo locals (shared p))
          = extend tf (handle_list_devices req sf)
    end.

End lock_model.

(** ** An outside world given by tables

    The registry answers from fixed tables and the localization services
    always acknowledge.  Used for the concrete runs below. *)

Record Registry := {
  reg_device_info : DeviceId → Res (list DeviceControl);
  reg_locations : Res (list Location);
  reg_devices : LocationId → Res (list Device);
  reg_transform : PoseStamped → Res PoseStamped
}.

(** The state of this world is the number of calls it has answered. *)
Definition tables (R : Registry) : Services nat := {|
  get_device_info d n := (reg_device_info R d, S n);
  list_locations n := (reg_locations R, S n);
  list_devices l n := (reg_devices R l, S n);
  global_localization n := (inr tt, S n);
  polygon_localization _ n := (inr tt, S n);
  transformPose _ msg n := reg_transform R msg
|}.

Module Example.

(** The two overlapping squares of the specification's example. *)
Definition geom : MapGeometry := {| geom_frame_id := "map" |}.
Definition A : Zone :=
  {| name := "A"; vertices := [(0, 0); (10, 0); (10, 10); (0, 10)]; gen := geom |}.
Definition B : Zone :=
  {| name := "B"; vertices := [(5, 5); (15, 5); (15, 15); (5, 15)]; gen := geom |}.

Definition inside (lo hi : Z) (p : Z * Z) : bool :=
  bool_decide (lo < p.1 < hi ∧ lo < p.2 < hi).

Definition zones : Zones :=
  {| zone_dict := {[ "A" := A; "B" := B ]};
     in_which p := (if inside 0 10 p then [A] else []) ++
                   (if inside 5 15 p then [B] else []) |}.

(** A runtime that iterates a set of zones in the order of their names, as
    [elements] lists them, or in the reverse of it. *)
Definition iterate (backwards : bool) (xs ys : list Zone) : list Zone :=
  let ks := elements ((list_to_set (name <$> xs) : gset string) ∖
                      list_to_set (name <$> ys)) in
  omap (λ k, head (filter (λ z, name z = k) xs))
       (if backwards then reverse ks else ks).

Definition runtime (backwards : bool) : SetOrder.
Proof.
  refine {| set_difference := iterate backwards |}.
  - intros xs ys. unfold iterate.
    set (ks := elements _).
    assert (Hks : ∀ k, k ∈ ks → k ∈ name <$> xs).
    { intros k. unfold ks. rewrite elem_of_elements, elem_of_difference.
      rewrite elem_of_list_to_set. tauto. }
    assert (Hperm : (if backwards then reverse ks else ks) ≡ₚ ks).
    { destruct backwards; [apply reverse_Permutation|done]. }
    assert (Hnames : ∀ l : list string,
              (∀ k, k ∈ l → k ∈ name <$> xs) →
              name <$> omap (λ k, head (filter (λ z, name z = k) xs)) l = l).
    { induction l as [|k l IH]; intros Hl; [done|].
      cbn [omap list_omap].
      destruct (proj1 (list_elem_of_fmap _ _ _) (Hl k ltac:(left)))
        as (z & Hk & Hz).
      destruct (filter (λ z, name z = k) xs) as [|z' zs'] eqn:Hf.
      { exfalso. eapply (not_elem_of_nil z). rewrite <- Hf.
        by apply list_elem_of_filter. }
      assert (Hz' : z' ∈ filter (λ z, name z = k) xs) by (rewrite Hf; left).
      apply list_elem_of_filter in Hz' as [Hname _].
      cbn. rewrite Hname. f_equal. apply IH. intros k' Hk'. apply Hl. by right. }
    rewrite Hnames; [exact Hperm|].
    intros k Hk. apply Hks. by rewrite <- Hperm.
  - intros xs ys z. unfold iterate. rewrite list_elem_of_omap.
    intros (k & _ & Hhead). apply head_Some_elem_of in Hhead.
    by apply list_elem_of_filter in Hhead as [_ ?].
Defined.

(** The runtime of the runs below. *)
Definition order : SetOrder := runtime false.

(** Zone A is controlled through two controls of device 7, zone B through a
    control of device 8. *)
Definition zone_controls : gmap string (list ControlDesc) :=
  {[ "A" := [ {| controlId := 71; deviceId := 7; control_name := "lamp" |};
              {| controlId := 72; deviceId := 7; control_name := "blind" |};
              {| controlId := 71; deviceId := 7; control_name := "lamp again" |} ];
     "B" := [ {| controlId := 81; deviceId := 8; control_name := "camera" |} ] ]}.

Definition server : ZoneServer := init zone_controls zones.

Definition kitchen : Location := {| locationId := 1; loc_name := "kitchen" |}.
Definition office : Location := {| locationId := 2; loc_name := "office" |}.

Definition world : Registry :=
  {| reg_device_info d :=
       if decide (d = 7)
       then inr [ {| cc_controlId := 71; cc_numVal := 1 |};
                  {| cc_controlId := 72; cc_numVal := 0 |} ]
       else if decide (d = 8) then inr [ {| cc_controlId := 81; cc_numVal := 5 |} ]
       else inl (ServiceException "no such device");
     reg_locations := inr [kitchen; office];
     reg_devices l :=
       if decide (l = 1) then inr [ {| dev_deviceId := 7 |}; {| dev_deviceId := 9 |} ]
       else inr [ {| dev_deviceId := 8 |} ];
     reg_transform msg := inr msg |}.

(** The same world with the device registry down. *)
Definition world_down : Registry :=
  {| reg_device_info _ := inl (ServiceException "peac/get_device_info");
     reg_locations := reg_locations world;
     reg_devices := reg_devices world;
     reg_transform := reg_transform world |}.

Definition up : Services nat := tables world.
Definition down : Services nat := tables world_down.

(** The server as [__init__] leaves it, in a world that has answered nothing. *)
Definition start : Sys nat := {| self := server; env := 0%nat |}.

Definition pose_at (x y : Z) : PoseStamped :=
  {| ps_header := {| seq := 1; stamp := 42; frame_id := "odom" |};
     ps_pose := {| position := {| px := x; py := y; pz := 0 |};
                   orientation := {| qx := 0; qy := 0; qz := 0; qw := 1 |} |} |}.

End Example.

(** The state after a first pose inside both squares, in the world that
    answers. *)
Definition in_A_and_B : Sys nat :=
  state_of (pose_cb (Services0:=Example.up) (SetOrder0:=Example.order)
              (Example.pose_at 7 7) Example.start).

(** A world whose device 8 has been set up anew and reports its control
    under another id than the configuration names. *)
Definition world_renumbered : Registry :=
  {| reg_device_info d :=
       if decide (d = 8) then inr [ {| cc_controlId := 82; cc_numVal := 5 |} ]
       else reg_device_info Example.world d;
     reg_locations := reg_locations Example.world;
     reg_devices := reg_devices Example.world;
     reg_transform := reg_transform Example.world |}.
Definition renumbered : Services nat := tables world_renumbered.

(** A world in which the devices of the office cannot be listed. *)
Definition world_office_down : Registry :=
  {| reg_device_info := reg_device_info Example.world;
     reg_locations := reg_locations Example.world;
     reg_devices l :=
       if decide (l = 2) then inl (ServiceException "peac/list_devices")
       else reg_devices Example.world l;
     reg_transform := reg_transform Example.world |}.
Definition office_down : Services nat := tables world_office_down.

(** A world in which device 7, the device of zone A, does not answer. *)
Definition world_lamp_down : Registry :=
  {| reg_device_info d :=
       if decide (d = 7) then inl (ServiceException "peac/get_device_info")
       else reg_device_info Example.world d;
     reg_locations := reg_locations Example.world;
     reg_devices := reg_devices Example.world;
     reg_transform := reg_transform Example.world |}.
Definition lamp_down : Services nat := tables world_lamp_down.

(** ** Basic facts about one invocation of [handle_list_devices] *)

Section list_devices_facts.
Context {Env : Type} `{!Services Env}.
Implicit Types (s : Sys Env) (cache : gmap Z DeviceControl)
  (zcs : list ZoneControl) (c : ControlDesc) (t : list Effect).

Lemma cache_controls_mono cache info k :
  is_Some (cache !! k) → is_Some (cache_controls cache info !! k).
Proof.
  revert cache. induction info as [|cc info IH]; intros cache Hk; [done|].
  simpl. apply IH. rewrite lookup_insert. case_decide; eauto.
Qed.

Lemma list_devices_body_outcome zone c cache zcs s :
  body_outcome zone c cache zcs s (list_devices_body zone c (cache, zcs) s).
Proof.
  unfold list_devices_body, mbind, M_bind, mret, M_ret, cache_getitem, call, raise.
  destruct (cache !! controlId c) as [cc|] eqn:Hc.
  - rewrite decide_True by eauto. simpl. rewrite Hc. destruct s. by constructor.
  - rewrite decide_False by (intros [? ?]; done).
    destruct (get_device_info (deviceId c) (env s)) as [[e|info] env'] eqn:Hcall.
    + by constructor.
    + destruct (cache_controls cache info !! controlId c) as [cc|] eqn:Hc'.
      * by econstructor.
      * by econstructor.
Qed.

Lemma list_devices_loop_cons zone c todo locals s :
  list_devices_loop zone (c :: todo) locals s =
  match list_devices_body zone c locals s with
  | (inl e, s1, t1) => (inl e, s1, t1)
  | (inr locals', s1, t1) =>
      match list_devices_loop zone todo locals' s1 with
      | (r, s2, t2) => (r, s2, t1 ++ t2)
      end
  end.
Proof. reflexivity. Qed.

(** Case analysis on the first iteration of the loop, for inductions on the
    descriptors still to do. *)
Ltac loop_step zone c cache zcs s :=
  rewrite list_devices_loop_cons;
  destruct (list_devices_body_outcome zone c cache zcs s)
    as [cc Hc|e env' Hc Hcall|info env' Hc Hcall Hc'|info env' cc Hc Hcall Hc'].

(** The method object is not touched: the cache and [zcs] are locals. *)
Lemma list_devices_loop_self zone todo cache zcs s :
  self (state_of (list_devices_loop zone todo (cache, zcs) s)) = self s.
Proof.
  revert cache zcs s. induction todo as [|c todo IH]; intros cache zcs s; [done|].
  loop_step zone c cache zcs s; try done.
  - specialize (IH cache (zcs ++ [zone_control zone c cc]) s).
    by destruct (list_devices_loop zone todo _ s) as [[??]?].
  - specialize (IH (cache_controls cache info) (zcs ++ [zone_control zone c cc])
                  {| self := self s; env := env' |}).
    by destruct (list_devices_loop zone todo _ _) as [[??]?].
Qed.

(** The calls of the loop are made for a sub-list of the descriptors, one
    call each, whose control ids are pairwise different and not yet cached. *)
Lemma list_devices_loop_queries zone todo cache zcs s :
  ∃ ds : list ControlDesc,
    ds `sublist_of` todo ∧
    NoDup (controlId <$> ds) ∧
    Forall (λ d, cache !! controlId d = None) ds ∧
    device_queries (trace_of (list_devices_loop zone todo (cache, zcs) s))
      = deviceId <$> ds ∧
    length (trace_of (list_devices_loop zone todo (cache, zcs) s)) = length ds.
Proof.
  revert cache zcs s. induction todo as [|c todo IH]; intros cache zcs s.
  { exists []. repeat split; try done. constructor. }
  loop_step zone c cache zcs s.
  - destruct (IH cache (zcs ++ [zone_control zone c cc]) s)
      as (ds & Hsub & Hnd & Hmiss & Hq & Hlen).
    destruct (list_devices_loop zone todo _ s) as [[r s2] t2].
    exists ds. repeat split; try done. by apply sublist_cons.
  - exists [c]. repeat split; try done.
    + apply sublist_skip, sublist_nil_l.
    + apply NoDup_singleton.
    + by constructor.
  - exists [c]. repeat split; try done.
    + apply sublist_skip, sublist_nil_l.
    + apply NoDup_singleton.
    + by constructor.
  - destruct (IH (cache_controls cache info) (zcs ++ [zone_control zone c cc])
                {| self := self s; env := env' |})
      as (ds & Hsub & Hnd & Hmiss & Hq & Hlen).
    destruct (list_devices_loop zone todo _ _) as [[r s2] t2].
    exists (c :: ds). cbn in *. repeat split.
    + by apply sublist_skip.
    + constructor; [|done]. intros Hin.
      apply list_elem_of_fmap in Hin as (d & Heq & Hd).
      rewrite Forall_forall in Hmiss. specialize (Hmiss d Hd).
      rewrite <- Heq in Hmiss. by rewrite Hc' in Hmiss.
    + constructor; [done|]. eapply Forall_impl; [exact Hmiss|].
      intros d Hd. simpl in Hd.
      destruct (cache !! controlId d) eqn:Hcd; [|done].
      destruct (cache_controls_mono cache info (controlId d)) as [? Hs]; [eauto|].
      by rewrite Hs in Hd.
    + by rewrite Hq.
    + by rewrite Hlen.
Qed.

(** A failed registry call ends the loop: it is the last call of the trace,
    every call before it was answered, and its exception is the result. *)
Lemma list_devices_loop_failure zone todo cache zcs s qd qe :
  GetDeviceInfo qd (inl qe) ∈ trace_of (list_devices_loop zone todo (cache, zcs) s) →
  result_of (list_devices_loop zone todo (cache, zcs) s) = inl qe ∧
  ∃ pre, trace_of (list_devices_loop zone todo (cache, zcs) s)
           = pre ++ [GetDeviceInfo qd (inl qe)] ∧ Forall answered pre.
Proof.
  revert cache zcs s. induction todo as [|c todo IH]; intros cache zcs s.
  { cbn. by intros ?%elem_of_nil. }
  loop_step zone c cache zcs s.
  - specialize (IH cache (zcs ++ [zone_control zone c cc]) s).
    by destruct (list_devices_loop zone todo _ s) as [[r s2] t2].
  - cbn. intros Hin%list_elem_of_singleton. injection Hin as -> ->.
    split; [done|]. exists []. by split.
  - cbn. by intros Hin%list_elem_of_singleton.
  - specialize (IH (cache_controls cache info) (zcs ++ [zone_control zone c cc])
                  {| self := self s; env := env' |}).
    destruct (list_devices_loop zone todo _ _) as [[r s2] t2]. cbn in *.
    intros [Hin|Hin]%elem_of_cons; [done|].
    destruct (IH Hin) as (-> & pre & -> & Hpre). split; [done|].
    exists (GetDeviceInfo (deviceId c) (inr info) :: pre). split; [done|].
    by constructor.
Qed.

(** With nothing cached, the first descriptor is always asked for. *)
Lemma list_devices_loop_first_query zone c todo cache zcs s :
  cache !! controlId c = None →
  ∃ t, trace_of (list_devices_loop zone (c :: todo) (cache, zcs) s)
       = GetDeviceInfo (deviceId c) (get_device_info (deviceId c) (env s)).1 :: t.
Proof.
  intros Hmiss. loop_step zone c cache zcs s; try congruence.
  - rewrite Hcall. by exists [].
  - rewrite Hcall. by exists [].
  - rewrite Hcall.
    destruct (list_devices_loop zone todo _ _) as [[r s2] t2]. by exists t2.
Qed.

Lemma handle_list_devices_unfold req s :
  handle_list_devices req s =
  list_devices_loop (req_zone req)
    (default [] (zone_controls (self s) !! req_zone req)) (∅, []) s.
Proof.
  unfold handle_list_devices, mbind, M_bind, get_self.
  by destruct (list_devices_loop _ _ _ s) as [[??]?].
Qed.

Lemma handle_list_devices_self req s :
  self (state_of (handle_list_devices req s)) = self s.
Proof. rewrite handle_list_devices_unfold. apply list_devices_loop_self. Qed.

Lemma handle_list_devices_query_bound (req : DevicesInZoneRequest) (s : Sys Env) :
  (length (device_queries (trace_of (handle_list_devices req s)))
     ≤ size (control_ids (self s) req))%nat.
Proof.
  rewrite handle_list_devices_unfold.
  destruct (list_devices_loop_queries (req_zone req)
              (default [] (zone_controls (self s) !! req_zone req)) ∅ [] s)
    as (ds & Hsub & Hnd & _ & Hq & Hlen).
  rewrite Hq, length_fmap, <- (length_fmap controlId).
  rewrite <- (size_list_to_set (C:=gset Z)) by done.
  apply subseteq_size. intros k Hk%elem_of_list_to_set.
  apply elem_of_list_to_set.
  apply list_elem_of_fmap in Hk as (d & -> & Hd).
  apply list_elem_of_fmap. exists d. split; [done|].
  by eapply sublist_submseteq, elem_of_submseteq in Hsub.
Qed.

End list_devices_facts.

(** ** Basic facts about the correlation of locations *)

Section correlation_facts.
Context {Env : Type} `{!Services Env}.
Implicit Types (s : Sys Env) (t : list Effect).

Lemma bind_run {A B} (m : M Env A) (f : A → M Env B) s :
  (m ≫= f) s =
  match m s with
  | (inl e, s1, t1) => (inl e, s1, t1)
  | (inr a, s1, t1) => match f a s1 with (r, s2, t2) => (r, s2, t1 ++ t2) end
  end.
Proof. reflexivity. Qed.

Lemma published_app t1 t2 : published (t1 ++ t2) = published t1 ++ published t2.
Proof. apply omap_app. Qed.

Lemma transitions_app t1 t2 :
  transitions (t1 ++ t2) = transitions t1 ++ transitions t2.
Proof. unfold transitions. by rewrite published_app, fmap_app. Qed.

Lemma quiet_bind {A B} (m : M Env A) (f : A → M Env B) :
  quiet m → (∀ a, quiet (f a)) → quiet (m ≫= f).
Proof.
  intros Hm Hf s. rewrite bind_run. destruct (Hm s) as [Hs Hp].
  destruct (m s) as [[[e|a] s1] t1]; [done|]. cbn in *.
  destruct (Hf a s1) as [Hs' Hp'].
  destruct (f a s1) as [[r s2] t2]. cbn in *.
  split; [congruence|]. by rewrite published_app, Hp, Hp'.
Qed.

Lemma quiet_ret {A} (x : A) : quiet (mret x : M Env A).
Proof. by intros s. Qed.

Lemma quiet_call {A} (f : Env → Res A * Env) (ev : Res A → Effect) :
  (∀ r tr, ev r ≠ Publish tr) → quiet (call f ev).
Proof.
  intros Hev s. unfold call. destruct (f (env s)) as [r e'] eqn:Hf. cbn.
  split; [done|]. unfold published. cbn. specialize (Hev r).
  destruct (ev r) as [| | | | |tr]; try done. by destruct (Hev tr).
Qed.

Lemma quiet_list_devices_loop zone todo locals :
  quiet (list_devices_loop zone todo locals).
Proof.
  revert locals. induction todo as [|c todo IH]; intros [cache zcs]; [by intros s|].
  cbn [list_devices_loop]. apply quiet_bind; [|done].
  unfold list_devices_body. apply quiet_bind.
  - case_decide; [apply quiet_ret|]. apply quiet_bind; [|intros; apply quiet_ret].
    by apply quiet_call.
  - intros cache'. apply quiet_bind; [|intros; apply quiet_ret].
    unfold cache_getitem. by destruct (cache' !! controlId c).
Qed.

Lemma quiet_handle_list_devices req : quiet (handle_list_devices req).
Proof.
  intros s. rewrite handle_list_devices_unfold. apply quiet_list_devices_loop.
Qed.

Lemma quiet_match_locations ids todo matched :
  quiet (match_locations ids todo matched).
Proof.
  revert matched. induction todo as [|l todo IH]; intros matched; [by intros s|].
  cbn [match_locations]. apply quiet_bind; [by apply quiet_call|done].
Qed.

Lemma quiet_get_peac_locations zone : quiet (get_peac_locations zone).
Proof.
  unfold get_peac_locations. apply quiet_bind; [apply quiet_handle_list_devices|].
  intros devices. apply quiet_bind; [by apply quiet_call|].
  intros locs. apply quiet_match_locations.
Qed.

(** On success the response lists one zone control per descriptor, in order. *)
Lemma list_devices_loop_device_ids zone todo cache zcs s resp :
  result_of (list_devices_loop zone todo (cache, zcs) s) = inr resp →
  zc_deviceId <$> controls resp = (zc_deviceId <$> zcs) ++ (deviceId <$> todo).
Proof.
  revert cache zcs s. induction todo as [|c todo IH]; intros cache zcs s.
  { cbn. intros [= <-]. cbn. by rewrite app_nil_r. }
  rewrite list_devices_loop_cons.
  destruct (list_devices_body_outcome zone c cache zcs s)
    as [cc Hc|e env' Hc Hcall|info env' Hc Hcall Hc'|info env' cc Hc Hcall Hc'];
    try done.
  - specialize (IH cache (zcs ++ [zone_control zone c cc]) s).
    destruct (list_devices_loop zone todo _ s) as [[r s2] t2]. cbn in *.
    intros ->. rewrite IH by done. by rewrite fmap_app, <- app_assoc.
  - specialize (IH (cache_controls cache info) (zcs ++ [zone_control zone c cc])
                  {| self := self s; env := env' |}).
    destruct (list_devices_loop zone todo _ _) as [[r s2] t2]. cbn in *.
    intros ->. rewrite IH by done. by rewrite fmap_app, <- app_assoc.
Qed.

(** With every location's devices on record, the loop appends the locations
    that share a device with the zone, in the order it is given them. *)
Lemma match_locations_ok ids todo matched s (devs : Location → list Device) :
  (∀ l w, l ∈ todo → (list_devices (locationId l) w).1 = inr (devs l)) →
  result_of (match_locations ids todo matched s) =
  inr (matched ++ filter (λ l, ids ∩ loc_device_ids (devs l) ≠ ∅) todo).
Proof.
  revert matched s. induction todo as [|l todo IH]; intros matched s Hdevs.
  { cbn. by rewrite app_nil_r. }
  cbn [match_locations]. rewrite bind_run. unfold call.
  pose proof (Hdevs l (env s) ltac:(left)) as Hl.
  destruct (list_devices (locationId l) (env s)) as [r e'] eqn:Hcall.
  cbn in Hl. subst r.
  match goal with |- context [match_locations ids todo ?m ?s'] =>
    specialize (IH m s' ltac:(intros; apply Hdevs; by right));
    destruct (match_locations ids todo m s') as [[r2 s2] t2] end.
  unfold result_of in *. cbn [fst] in *. rewrite IH, filter_cons. clear IH.
  case_decide; [|done]. by rewrite <- app_assoc.
Qed.

End correlation_facts.

(** ** Basic facts about transitions *)

Section transition_facts.
Context {Env : Type} `{!Services Env} {SetOrder0 : SetOrder}.
Implicit Types (s : Sys Env) (t : list Effect) (z : Zone).

Lemma transition_msg_run a z s :
  self (state_of (transition_msg a z s)) = self s ∧
  emitted (result_of (transition_msg a z s))
          (transitions (trace_of (transition_msg a z s))) [(a, to_msg z)].
Proof.
  unfold transition_msg. rewrite bind_run.
  destruct (quiet_get_peac_locations (Resolved z) s) as [Hs Hp].
  destruct (get_peac_locations (Resolved z) s) as [[[e|locs] s1] t1];
    unfold result_of, state_of, trace_of, transitions in *; cbn in *.
  - split; [done|]. rewrite Hp. by exists (a, to_msg z), [].
  - split; [done|]. by rewrite published_app, Hp.
Qed.

Lemma for_each_transitions a zs s :
  self (state_of (for_each zs (transition_msg a) s)) = self s ∧
  emitted (result_of (for_each zs (transition_msg a) s))
          (transitions (trace_of (for_each zs (transition_msg a) s)))
          (events a zs).
Proof.
  revert s. induction zs as [|z zs IH]; intros s; [done|].
  cbn [for_each]. rewrite bind_run.
  destruct (transition_msg_run a z s) as [Hs Hev].
  destruct (transition_msg a z s) as [[[e|[]] s1] t1];
    unfold result_of, state_of, trace_of in *; cbn in *.
  - split; [done|]. destruct Hev as (ev & rest & Hev).
    destruct (transitions t1) as [|? [|??]]; simplify_eq/=.
    by eexists _, _.
  - destruct (IH s1) as [Hs' Hev'].
    destruct (for_each zs (transition_msg a) s1) as [[r s2] t2]. cbn in *.
    split; [congruence|]. rewrite transitions_app, Hev.
    change (events a (z :: zs)) with ((a, to_msg z) :: events a zs).
    destruct r as [e|]; cbn in *; [|by rewrite Hev'].
    destruct Hev' as (ev & rest & ->). by exists ev, rest.
Qed.

(** [check_transition] with a non-empty [current_zones]: the exits, then the
    entries. *)
Lemma check_transition_run s :
  current_zones (self s) ≠ [] →
  self (state_of (check_transition s)) = self s ∧
  emitted (result_of (check_transition s))
          (transitions (trace_of (check_transition s)))
          (events EXIT (set_difference (previous_zones (self s))
                                       (current_zones (self s))) ++
           events ENTER (set_difference (current_zones (self s))
                                        (previous_zones (self s)))).
Proof.
  intros Hcur. unfold check_transition. rewrite bind_run. cbn [get_self].
  rewrite bool_decide_eq_true_2 by done. rewrite bind_run.
  set (exited := set_difference (previous_zones (self s)) (current_zones (self s))).
  set (entered := set_difference (current_zones (self s)) (previous_zones (self s))).
  destruct (for_each_transitions EXIT exited s) as [Hs1 Hev1].
  destruct (for_each exited (transition_msg EXIT) s) as [[[e|[]] s1] t1];
    unfold result_of, state_of, trace_of in *; cbn in *.
  - split; [done|]. destruct Hev1 as (ev & rest & ->).
    exists ev, (rest ++ events ENTER entered). by rewrite <- app_assoc.
  - destruct (for_each_transitions ENTER entered s1) as [Hs2 Hev2].
    destruct (for_each entered (transition_msg ENTER) s1) as [[r s2] t2].
    unfold result_of, state_of, trace_of in *; cbn in *.
    split; [congruence|]. rewrite transitions_app, Hev1.
    destruct r as [e|]; cbn in *; [|by rewrite Hev2].
    destruct Hev2 as (ev & rest & ->). exists ev, rest. by rewrite <- app_assoc.
Qed.

(** One message: it is published exactly when the correlation returns. *)
Lemma transition_msg_correlate a z s :
  let out := transition_msg a z s in
  match get_peac_locations (Resolved z) s with
  | (inl e, s1, _) =>
      result_of out = inl e ∧ state_of out = s1 ∧ transitions (trace_of out) = []
  | (inr _, s1, _) =>
      result_of out = inr tt ∧ state_of out = s1 ∧
      transitions (trace_of out) = [(a, to_msg z)]
  end.
Proof.
  cbv zeta. unfold transition_msg. rewrite bind_run.
  destruct (quiet_get_peac_locations (Resolved z) s) as [_ Hp].
  destruct (get_peac_locations (Resolved z) s) as [[[e|locs] s1] t1];
    unfold result_of, state_of, trace_of, transitions in *; cbn in *.
  - by rewrite Hp.
  - by rewrite published_app, Hp.
Qed.

Lemma correlate_le zs s : (correlated zs s ≤ length zs)%nat.
Proof.
  unfold correlated. revert s. induction zs as [|z zs IH]; intros s; [done|].
  cbn [correlate].
  destruct (get_peac_locations (Resolved z) s) as [[[e|locs] s1] t1];
    [cbn; lia|].
  specialize (IH s1). destruct (correlate zs s1) as [n s2]. cbn in *. lia.
Qed.

(** A loop of [check_transition]: it publishes the events of the zones whose
    correlation returns, and goes on exactly as long as they do. *)
Lemma for_each_correlate a zs s :
  let out := for_each zs (transition_msg a) s in
  state_of out = (correlate zs s).2 ∧
  transitions (trace_of out) = take (correlated zs s) (events a zs) ∧
  (correlated zs s = length zs → result_of out = inr tt) ∧
  ((correlated zs s < length zs)%nat → ∃ e, result_of out = inl e).
Proof.
  cbv zeta. unfold correlated. revert s.
  induction zs as [|z zs IH]; intros s.
  { cbn. repeat split; try done. cbn. lia. }
  cbn [for_each correlate]. rewrite bind_run.
  pose proof (transition_msg_correlate a z s) as Hz. cbv zeta in Hz.
  destruct (get_peac_locations (Resolved z) s) as [[[e|locs] s1] t1];
    destruct Hz as (Hr & Hs & Hev);
    destruct (transition_msg a z s) as [[r s1'] t1'];
    unfold result_of, state_of, trace_of in *; cbn [fst snd] in *; subst r s1'.
  - cbn [fst snd]. split; [done|]. split; [by rewrite Hev|]. split; [done|].
    eauto.
  - specialize (IH s1). destruct (correlate zs s1) as [n s2].
    destruct (for_each zs (transition_msg a) s1) as [[r s2'] t2].
    cbn [fst snd length] in *. destruct IH as (Hs' & Hev' & Hall & Hfail).
    split; [done|]. split; [|split].
    + rewrite transitions_app, Hev, Hev'. reflexivity.
    + intros [= Hn]. auto.
    + intros Hn. apply Hfail. lia.
Qed.

Lemma correlate_app zs1 zs2 s :
  correlate (zs1 ++ zs2) s =
  if decide (correlated zs1 s = length zs1)
  then ((length zs1 + correlated zs2 (correlate zs1 s).2)%nat,
        (correlate zs2 (correlate zs1 s).2).2)
  else correlate zs1 s.
Proof.
  unfold correlated. revert s. induction zs1 as [|z zs1 IH]; intros s.
  { cbn. by destruct (correlate zs2 s). }
  cbn [app correlate length].
  destruct (get_peac_locations (Resolved z) s) as [[[e|locs] s1] t1]; [done|].
  rewrite IH. destruct (correlate zs1 s1) as [n s2]. cbn [fst snd].
  destruct (decide (n = length zs1)) as [->|Hn].
  - by rewrite decide_True by done.
  - rewrite decide_False by lia. done.
Qed.

(** [check_transition] with a non-empty [current_zones]: the events published
    are those of the exited zones, then of the entered zones, up to the first
    zone whose correlation raises; it returns when there is no such zone and
    raises otherwise. *)
Lemma check_transition_correlate s :
  current_zones (self s) ≠ [] →
  let out := check_transition s in
  let exited := set_difference (previous_zones (self s)) (current_zones (self s)) in
  let entered := set_difference (current_zones (self s)) (previous_zones (self s)) in
  let n := correlated (exited ++ entered) s in
  transitions (trace_of out) = take n (events EXIT exited ++ events ENTER entered) ∧
  (n = length (exited ++ entered) → result_of out = inr tt) ∧
  ((n < length (exited ++ entered))%nat → ∃ e, result_of out = inl e).
Proof.
  intros Hcur out exited entered n. subst out n.
  unfold check_transition. rewrite bind_run. cbn [get_self].
  rewrite bool_decide_eq_true_2 by done. rewrite bind_run.
  fold exited entered.
  unfold correlated at 1 2 3. rewrite correlate_app.
  pose proof (for_each_correlate EXIT exited s) as H1. cbv zeta in H1.
  pose proof (correlate_le exited s) as Hle1.
  assert (Hlen1 : length (events EXIT exited) = length exited)
    by (unfold events; apply length_fmap).
  destruct (decide (correlated exited s = length exited)) as [Hall|Hnot].
  - destruct H1 as (Hs1 & Hev1 & Hr1 & _). specialize (Hr1 Hall).
    rewrite Hall, take_ge in Hev1 by lia.
    destruct (for_each exited (transition_msg EXIT) s) as [[r1 s1] t1].
    unfold result_of, state_of, trace_of in *; cbn [fst snd] in *. subst r1 s1.
    pose proof (for_each_correlate ENTER entered (correlate exited s).2) as H2.
    cbv zeta in H2. destruct H2 as (_ & Hev2 & Hr2 & Hf2).
    destruct (for_each entered (transition_msg ENTER) _) as [[r2 s2] t2].
    unfold result_of, state_of, trace_of in *; cbn [fst snd] in *.
    rewrite length_app. split; [|split].
    + cbn [app]. rewrite transitions_app, Hev1, Hev2.
      by rewrite <- Hlen1, take_app_add.
    + intros Hn. apply Hr2. lia.
    + intros Hn. apply Hf2. lia.
  - destruct H1 as (_ & Hev1 & _ & Hf1). specialize (Hf1 ltac:(lia)).
    destruct Hf1 as [e He].
    destruct (for_each exited (transition_msg EXIT) s) as [[r1 s1] t1].
    unfold result_of, state_of, trace_of in *; cbn [fst snd] in *. subst r1.
    fold (correlated exited s). rewrite length_app. cbn [fst snd app].
    split; [|split].
    + rewrite Hev1. by rewrite take_app_le by lia.
    + intros Hn. lia.
    + eauto.
Qed.

End transition_facts.

(** ** Basic facts about the pose callbacks *)

Section pose_facts.
Context {Env : Type} `{!Services Env} {SetOrder0 : SetOrder}.
Implicit Types (s : Sys Env) (msg : PoseStamped).

Lemma pose_cb_dropped msg s e :
  membership_of s msg = inl e → pose_cb msg s = (inl e, s, []).
Proof.
  unfold membership_of, pose_cb. rewrite bind_run. unfold tfl_transformPose.
  destruct (transformPose _ _ _); by intros [= ->].
Qed.

Lemma pose_cb_nowhere msg s :
  membership_of s msg = inr [] → pose_cb msg s = (inr tt, s, []).
Proof.
  unfold membership_of, pose_cb. rewrite bind_run. unfold tfl_transformPose.
  destruct (transformPose _ _ _) as [e|msg_trans]; [done|]. intros [= Hm].
  rewrite bind_run. cbn [get_self]. by rewrite Hm.
Qed.

Lemma pose_cb_somewhere msg s within_zones :
  membership_of s msg = inr within_zones → within_zones ≠ [] →
  pose_cb msg s =
  check_transition {| self := moved_to (self s) within_zones; env := env s |}.
Proof.
  unfold membership_of, pose_cb. rewrite bind_run. unfold tfl_transformPose.
  destruct (transformPose _ _ _) as [e|msg_trans]; [done|]. intros [= Hm] Hne.
  rewrite bind_run. cbn [get_self]. rewrite Hm.
  rewrite bool_decide_eq_true_2 by done.
  unfold set_previous_zones, set_current_zones, put_self, get_self, moved_to,
    mbind, M_bind. cbn.
  by destruct (check_transition _) as [[r s2] t2].
Qed.

(** What the runtime is known to do: one zone of [xs] for each name of [xs]
    that is no name of [ys]. *)
Lemma set_difference_spec (xs ys : list Zone) :
  NoDup (name <$> set_difference xs ys) ∧
  (∀ z, z ∈ set_difference xs ys → z ∈ xs) ∧
  ∀ k, k ∈ name <$> set_difference xs ys ↔
       k ∈ name <$> xs ∧ k ∉ name <$> ys.
Proof.
  pose proof (set_difference_names xs ys) as Hperm. split; [|split].
  - rewrite Hperm. apply NoDup_elements.
  - apply set_difference_zones.
  - intros k. rewrite Hperm, elem_of_elements, elem_of_difference.
    by rewrite !elem_of_list_to_set.
Qed.

(** No name to give: nothing to iterate. *)
Lemma set_difference_none (xs ys : list Zone) :
  (∀ k, k ∈ name <$> xs → k ∈ name <$> ys) → set_difference xs ys = [].
Proof.
  intros Hsub. destruct (set_difference_spec xs ys) as (_ & _ & Hin).
  destruct (set_difference xs ys) as [|z zs]; [done|].
  destruct (proj1 (Hin (name z)) ltac:(cbn; left)) as [Hx Hy].
  destruct Hy. by apply Hsub.
Qed.

Lemma set_difference_nil_l (ys : list Zone) : set_difference [] ys = [].
Proof. apply set_difference_none. by intros k ?%elem_of_nil. Qed.

(** Poses without a zone, and poses tf cannot transform, leave the server as
    it is and publish nothing. *)
Lemma deliver_nowhere (msgs : list PoseStamped) (s : Sys Env) :
  Forall (λ msg, membership_of s msg = inr [] ∨
                 ∃ e, membership_of s msg = inl e) msgs →
  deliver msgs s = (s, []).
Proof.
  induction 1 as [|msg msgs Hmsg _ IH]; [done|]. cbn [deliver].
  destruct Hmsg as [Hm|[e Hm]].
  - by rewrite (pose_cb_nowhere msg s Hm), IH.
  - by rewrite (pose_cb_dropped msg s e Hm), IH.
Qed.

End pose_facts.

(** ** The lock serializes *)

Section lock_facts.
Context {Env : Type} `{!Services Env}.
Variable reqs : list DevicesInZoneRequest.
Implicit Types (p : Pool Env) (i j k : nat).

Lemma serialized_snoc hist s0 sf tf j req r s' t' :
  serialized reqs hist s0 sf tf →
  reqs !! j = Some req → handle_list_devices req sf = (r, s', t') →
  serialized reqs (hist ++ [(j, r)]) s0 s' (tf ++ t').
Proof.
  revert s0 tf. induction hist as [|[i ri] hist IH]; intros s0 tf.
  - intros [-> ->] Hj Hrun. cbn. exists req, s', t', []. by rewrite app_nil_r.
  - intros (reqi & s1 & t1 & t2 & Hi & Hruni & Hrest & ->) Hj Hrun. cbn.
    exists reqi, s1, t1, (t2 ++ t'). rewrite app_assoc. eauto.
Qed.

Lemma lock_inv_pool0 s0 : lock_inv reqs s0 (pool0 reqs s0).
Proof.
  exists [], s0, []. cbn. split; [constructor|]. split; [done|]. split.
  - intros i r. split; [|by intros ?%elem_of_nil].
    by intros [? _]%lookup_replicate_1.
  - split; [done|]. split; [done|]. intros i todo locals.
    by intros [? _]%lookup_replicate_1.
Qed.

(** A thread that is not done keeps the done threads what they are. *)
Lemma done_insert (ths : list Pc) i pc k r :
  ths !! i = Some pc → (∀ r', pc ≠ Done r') →
  (∀ todo locals, <[i := InLoop todo locals]> ths !! k = Some (Done r) ↔
                  ths !! k = Some (Done r)).
Proof.
  intros Hi Hpc todo locals. destruct (decide (k = i)) as [->|Hne].
  - rewrite list_lookup_insert_eq by (by eapply lookup_lt_Some).
    rewrite Hi. split; [done|]. intros [= ->]. by destruct (Hpc r).
  - by rewrite list_lookup_insert_ne.
Qed.

(** The thread in the loop leaves the block with [r]. *)
Lemma lock_inv_leave s0 p i req todo locals hist sf tf r s' t1 :
  NoDup hist.*1 → serialized reqs hist s0 sf tf →
  (∀ k r, threads p !! k = Some (Done r) ↔ (k, r) ∈ hist) →
  reqs !! i = Some req →
  threads p !! i = Some (InLoop todo locals) →
  (∀ k todo' locals', threads p !! k = Some (InLoop todo' locals') → k = i) →
  extend (log p) (r, s', t1) = extend tf (handle_list_devices req sf) →
  lock_inv reqs s0 {| threads := <[i := Done r]> (threads p); lock := None;
                 shared := s'; log := log p ++ t1 |}.
Proof.
  intros Hnd Hser Hdone Hreq Hth Huniq Hext.
  destruct (handle_list_devices req sf) as [[r' s''] t'] eqn:Hrun.
  unfold extend in Hext. cbn in Hext. injection Hext as <- <- Hlog.
  assert (Hfresh : ∀ r0, (i, r0) ∉ hist).
  { intros r0 Hin. apply Hdone in Hin. congruence. }
  exists (hist ++ [(i, r)]), s', (tf ++ t'). split; [|split; [|split]].
  - rewrite fmap_app. apply NoDup_app. split; [done|]. split; [|apply NoDup_singleton].
    intros k Hk ->%list_elem_of_singleton.
    apply list_elem_of_fmap in Hk as ([k r0] & Heq & Hin). cbn in Heq. subst k.
    by apply (Hfresh r0).
  - by eapply serialized_snoc.
  - intros k r0. cbn [threads]. rewrite elem_of_app, list_elem_of_singleton.
    destruct (decide (k = i)) as [->|Hne].
    + rewrite list_lookup_insert_eq by (by eapply lookup_lt_Some). split.
      * intros [= ->]. by right.
      * intros [Hin|[= ->]]; [by destruct (Hfresh r0)|done].
    + rewrite list_lookup_insert_ne by done. rewrite Hdone. split; [by left|].
      intros [Hin|[= ? ?]]; done.
  - cbn. split; [done|]. split; [done|]. intros k todo' locals'.
    destruct (decide (k = i)) as [->|Hne].
    + by rewrite list_lookup_insert_eq by (by eapply lookup_lt_Some).
    + rewrite list_lookup_insert_ne by done. intros Hk. by apply Huniq in Hk.
Qed.

Lemma lock_inv_step s0 i p : lock_inv reqs s0 p → lock_inv reqs s0 (step reqs i p).
Proof.
  intros (hist & sf & tf & Hnd & Hser & Hdone & Hlock). unfold step.
  destruct (reqs !! i) as [req|] eqn:Hreq; [|by exists hist, sf, tf].
  destruct (threads p !! i) as [[|todo locals|r]|] eqn:Hth;
    try (by exists hist, sf, tf).
  - (* taking the lock *)
    destruct (lock p) as [j|] eqn:Hl.
    { exists hist, sf, tf. by rewrite Hl. }
    destruct Hlock as (Hs & Hlog & Hnone).
    exists hist, sf, tf. split; [done|]. split; [done|]. split.
    + intros k r. cbn [threads]. rewrite <- Hdone. by eapply done_insert.
    + cbn. eexists req, _, _. split; [done|]. split.
      { by rewrite list_lookup_insert_eq by (by eapply lookup_lt_Some). }
      split.
      * intros k todo' locals'. destruct (decide (k = i)) as [->|Hne]; [done|].
        rewrite list_lookup_insert_ne by done. intros Hk. by apply Hnone in Hk.
      * by rewrite Hs, Hlog, handle_list_devices_unfold.
  - (* in the loop: this thread holds the lock *)
    destruct (lock p) as [j|] eqn:Hl;
      [|destruct Hlock as (_ & _ & Hnone); by apply Hnone in Hth].
    destruct Hlock as (req' & todo0 & locals0 & Hreq' & Hthj & Huniq & Hext).
    assert (i = j) as <- by (by eapply Huniq).
    rewrite Hreq in Hreq'. injection Hreq' as <-.
    rewrite Hth in Hthj. injection Hthj as <- <-.
    destruct todo as [|control todo].
    + destruct locals as [cache zcs].
      pose proof (lock_inv_leave s0 p i req [] (cache, zcs) hist sf tf
                    (inr {| controls := zcs |}) (shared p) []
                    Hnd Hser Hdone Hreq Hth Huniq Hext) as Hleft.
      by rewrite app_nil_r in Hleft.
    + destruct locals as [cache zcs].
      rewrite list_devices_loop_cons in Hext.
      destruct (list_devices_body (req_zone req) control (cache, zcs) (shared p))
        as [[[e|locals'] s1] t1] eqn:Hbody.
      * by eapply (lock_inv_leave s0 p i req (control :: todo) (cache, zcs)).
      * exists hist, sf, tf. split; [done|]. split; [done|]. split.
        -- intros k r. cbn [threads]. rewrite <- Hdone. by eapply done_insert.
        -- cbn. exists req, todo, locals'. split; [done|]. split.
           { by rewrite list_lookup_insert_eq by (by eapply lookup_lt_Some). }
           split.
           ++ intros k todo' locals''. destruct (decide (k = i)) as [->|Hne]; [done|].
              rewrite list_lookup_insert_ne by done. apply Huniq.
           ++ rewrite <- Hext.
              destruct (list_devices_loop (req_zone req) todo locals' s1)
                as [[r s2] t2].
              unfold extend. cbn. by rewrite app_assoc.
Qed.

Lemma lock_inv_run s0 sched p :
  lock_inv reqs s0 p → lock_inv reqs s0 (run reqs sched p).
Proof.
  revert p. induction sched as [|i sched IH]; intros p Hp; [done|].
  cbn. apply IH. by apply lock_inv_step.
Qed.

Lemma device_queries_app (t1 t2 : list Effect) :
  device_queries (t1 ++ t2) = device_queries t1 ++ device_queries t2.
Proof. apply omap_app. Qed.

(** The invocations that have returned made no more registry calls than
    their zones have distinct control ids, and left the server object alone. *)
Lemma serialized_bound hist s0 sf tf :
  serialized reqs hist s0 sf tf →
  self sf = self s0 ∧
  Forall (λ i, is_Some (reqs !! i)) hist.*1 ∧
  (length (device_queries tf) ≤ sum_list_with (budget (self s0) reqs) hist.*1)%nat.
Proof.
  revert s0 tf. induction hist as [|[i r] hist IH]; intros s0 tf.
  { intros [-> ->]. by repeat split. }
  intros (req & s1 & t1 & t2 & Hi & Hrun & Hrest & ->).
  destruct (IH s1 t2 Hrest) as (Hself & Hvalid & Hle).
  pose proof (handle_list_devices_query_bound req s0) as Hq.
  pose proof (handle_list_devices_self req s0) as Hs1.
  rewrite Hrun in Hq, Hs1. unfold trace_of, state_of in Hq, Hs1.
  cbn [fst snd] in Hq, Hs1. rewrite Hs1 in Hself, Hle.
  split; [done|]. split; [constructor; eauto|].
  rewrite device_queries_app, length_app. cbn [fmap list_fmap sum_list_with fst].
  unfold budget at 1. rewrite Hi. cbn. lia.
Qed.

(** Distinct threads spend no more than all threads together. *)
Lemma budget_le (w : nat → nat) (l : list nat) (n : nat) :
  NoDup l → Forall (λ i, (i < n)%nat) l →
  (sum_list_with w l ≤ sum_list_with w (List.seq 0 n))%nat.
Proof.
  intros Hnd Hlt.
  destruct (submseteq_Permutation l (List.seq 0 n)) as [k Hk].
  { apply NoDup_submseteq; [done|]. intros i Hi. apply elem_of_seq.
    rewrite Forall_forall in Hlt. specialize (Hlt i Hi). lia. }
  rewrite Hk, sum_list_with_app. lia.
Qed.

(** At any point of any schedule, the registry calls made so far are within
    the budget of the threads. *)
Lemma lock_inv_bound s0 p :
  lock_inv reqs s0 p →
  (length (device_queries (log p))
     ≤ sum_list_with (budget (self s0) reqs) (List.seq 0 (length reqs)))%nat.
Proof.
  intros (hist & sf & tf & Hnd & Hser & Hdone & Hlock).
  destruct (serialized_bound hist s0 sf tf Hser) as (Hself & Hvalid & Hle).
  assert (Hlt : Forall (λ i, (i < length reqs)%nat) hist.*1).
  { eapply Forall_impl; [exact Hvalid|]. intros i. apply lookup_lt_is_Some_1. }
  destruct (lock p) as [j|].
  - destruct Hlock as (req & todo & locals & Hj & Hth & _ & Hext).
    pose proof (handle_list_devices_query_bound req sf) as Hq.
    rewrite Hself in Hq.
    assert (Hfresh : j ∉ hist.*1).
    { intros Hin. apply list_elem_of_fmap in Hin as ([j' r] & Heq & Hin).
      cbn in Heq. subst j'. apply Hdone in Hin. congruence. }
    etrans; [|apply (budget_le _ (hist.*1 ++ [j]))].
    + rewrite sum_list_with_app. cbn [sum_list_with].
      unfold budget at 2. rewrite Hj. cbn [from_option].
      destruct (list_devices_loop (req_zone req) todo locals (shared p))
        as [[r1 s1] t1].
      destruct (handle_list_devices req sf) as [[r2 s2] t2].
      unfold extend in Hext. unfold trace_of in Hq. cbn [fst snd] in Hext, Hq.
      injection Hext as _ _ Hlog.
      assert (Hlen : (length (device_queries (log p))
                        ≤ length (device_queries (log p ++ t1)))%nat).
      { rewrite device_queries_app, length_app. lia. }
      rewrite Hlog, device_queries_app, length_app in Hlen. lia.
    + apply NoDup_app. split; [done|]. split; [|apply NoDup_singleton].
      by intros i Hi ->%list_elem_of_singleton.
    + apply Forall_app. split; [done|]. constructor; [|done].
      apply lookup_lt_is_Some_1. eauto.
  - destruct Hlock as (_ & -> & _). etrans; [exact Hle|]. by apply budget_le.
Qed.

Lemma two_done (r0 r1 r : Res DevicesInZoneResponse) (k : nat) :
  [Done r0; Done r1] !! k = Some (Done r) → (k = 0%nat ∧ r = r0) ∨ (k = 1%nat ∧ r = r1).
Proof. destruct k as [|[|k]]; cbn; naive_solver. Qed.

End lock_facts.

(** ** The transition engine *)

Section pose_claims.
Context {Env : Type} `{!Services Env} {SetOrder0 : SetOrder}.

(** C1 (as amended): for a pose whose membership is non-empty, [pose_cb]
    sets [previous_zones] to the old [current_zones] and [current_zones] to
    the membership, whatever happens next.  The zones that exit are those of
    previous − current and the zones that enter those of current − previous,
    the differences being taken by zone name, each name once, in whatever
    order the runtime iterates the two sets.  The correlations of these
    zones are made in that order, the exited zones first; with [n] the number
    of them that return before one raises, the events published are the
    first [n] of: one EXIT per exited zone, then one ENTER per entered zone.
    So when every correlation returns, the callback returns and has
    published all of them, every EXIT before any ENTER; and when the
    correlation of a zone raises, the callback raises, and the events
    published are those of the zones before it. *)
Theorem pose_cb_transition (msg : PoseStamped) (s : Sys Env)
    (membership : list Zone) :
  membership_of s msg = inr membership → membership ≠ [] →
  let out := pose_cb msg s in
  let previous := current_zones (self s) in
  let exited := set_difference previous membership in
  let entered := set_difference membership previous in
  let expected := events EXIT exited ++ events ENTER entered in
  let n := correlated (exited ++ entered)
             {| self := moved_to (self s) membership; env := env s |} in
  self (state_of out) = moved_to (self s) membership ∧
  (NoDup (name <$> exited) ∧ (∀ z, z ∈ exited → z ∈ previous) ∧
   ∀ k, k ∈ name <$> exited ↔ k ∈ name <$> previous ∧ k ∉ name <$> membership) ∧
  (NoDup (name <$> entered) ∧ (∀ z, z ∈ entered → z ∈ membership) ∧
   ∀ k, k ∈ name <$> entered ↔ k ∈ name <$> membership ∧ k ∉ name <$> previous) ∧
  transitions (trace_of out) = take n expected ∧
  (n = length (exited ++ entered) →
   result_of out = inr tt ∧ transitions (trace_of out) = expected) ∧
  ((n < length (exited ++ entered))%nat → ∃ e, result_of out = inl e).
Proof.
  intros Hm Hne out previous exited entered expected n. subst out.
  rewrite (pose_cb_somewhere msg s membership Hm Hne).
  set (moved := {| self := moved_to (self s) membership; env := env s |}) in *.
  destruct (check_transition_run moved Hne) as [Hself _].
  destruct (check_transition_correlate moved Hne) as (Hev & Hall & Hfail).
  destruct (set_difference_spec previous membership) as (Hnd1 & Hz1 & Hin1).
  destruct (set_difference_spec membership previous) as (Hnd2 & Hz2 & Hin2).
  split; [done|]. split; [done|]. split; [done|]. split; [exact Hev|].
  split; [|exact Hfail].
  intros Hn. split; [by apply Hall|]. rewrite Hev. apply take_ge.
  cbn [moved self moved_to previous_zones current_zones].
  fold previous exited entered n. rewrite Hn.
  unfold expected, events. by rewrite !length_app, !length_fmap.
Qed.

(** C2: for a pose whose membership is empty, [pose_cb] returns having
    changed nothing ([current_zones] and [previous_zones] included) and
    having called and published nothing. *)
Theorem pose_cb_empty_membership (msg : PoseStamped) (s : Sys Env) :
  membership_of s msg = inr [] →
  pose_cb msg s = (inr tt, s, []) ∧
  current_zones (self (state_of (pose_cb msg s))) = current_zones (self s) ∧
  previous_zones (self (state_of (pose_cb msg s))) = previous_zones (self s) ∧
  published (trace_of (pose_cb msg s)) = [].
Proof. intros Hm. by rewrite (pose_cb_nowhere msg s Hm). Qed.

(** C3 (as amended): from the server as [__init__] leaves it, after any
    poses without a zone, the first pose with a non-empty membership leaves
    [previous_zones] empty and publishes no EXIT event.  The zones that enter
    are the zones of the membership, one for each name, in whatever order the
    runtime iterates the set, and their correlations are made in that order;
    with [n] the number of them that return before one raises, the events
    published are the ENTER events of the first [n] zones.  So when every
    correlation returns, the callback returns and every zone of the
    membership has its ENTER event; and when the correlation of a zone
    raises, the callback raises, and the ENTER events published are those of
    the zones before it. *)
Theorem first_membership_enters (zone_controls : gmap string (list ControlDesc))
    (zs : Zones) (env0 : Env) (before : list PoseStamped) (msg : PoseStamped)
    (membership : list Zone) :
  let s0 := {| self := init zone_controls zs; env := env0 |} in
  Forall (λ m, membership_of s0 m = inr [] ∨ ∃ e, membership_of s0 m = inl e)
         before →
  membership_of s0 msg = inr membership → membership ≠ [] →
  let out := pose_cb msg (deliver before s0).1 in
  let entered := set_difference membership [] in
  let n := correlated entered
             {| self := moved_to (init zone_controls zs) membership;
                env := env0 |} in
  deliver before s0 = (s0, []) ∧
  previous_zones (self (state_of out)) = [] ∧
  current_zones (self (state_of out)) = membership ∧
  (NoDup (name <$> entered) ∧ (∀ z, z ∈ entered → z ∈ membership) ∧
   ∀ z, z ∈ membership → name z ∈ name <$> entered) ∧
  (∀ tr, tr ∈ published (trace_of out) → action tr = ENTER) ∧
  transitions (trace_of out) = take n (events ENTER entered) ∧
  (n = length entered →
   result_of out = inr tt ∧
   transitions (trace_of out) = events ENTER entered ∧
   ∀ z, z ∈ membership →
        ∃ tr, tr ∈ published (trace_of out) ∧ action tr = ENTER ∧
              msg_name (zone tr) = name z) ∧
  ((n < length entered)%nat → ∃ e, result_of out = inl e).
Proof.
  intros s0 Hbefore Hm Hne out entered n. subst out.
  rewrite (deliver_nowhere before s0 Hbefore). cbn [fst].
  rewrite (pose_cb_somewhere msg s0 membership Hm Hne).
  set (moved := {| self := moved_to (self s0) membership; env := env s0 |}) in *.
  destruct (check_transition_run moved Hne) as [Hself _].
  destruct (check_transition_correlate moved Hne) as (Hev & Hall & Hfail).
  cbn [moved s0 self env current_zones previous_zones moved_to init]
    in Hev, Hall, Hfail.
  rewrite set_difference_nil_l in Hev, Hall, Hfail.
  change (events EXIT [] ++ events ENTER (set_difference membership []))
    with (events ENTER entered) in Hev.
  cbn [app] in Hev, Hall, Hfail.
  change (correlated (set_difference membership []) _) with n in Hev, Hall, Hfail.
  fold entered in Hall, Hfail.
  destruct (set_difference_spec membership []) as (Hnd & Hz & Hin).
  fold entered in Hnd, Hz, Hin.
  assert (Hnames : ∀ z, z ∈ membership → name z ∈ name <$> entered).
  { intros z Hzm. apply Hin. split.
    - apply list_elem_of_fmap. by exists z.
    - by intros ?%elem_of_nil. }
  split; [done|]. rewrite Hself. split; [done|]. split; [done|].
  split; [done|]. split; [|split; [exact Hev|split; [|exact Hfail]]].
  - intros tr Htr.
    assert (Hp : (action tr, zone tr) ∈ transitions (trace_of (check_transition moved))).
    { unfold transitions. apply list_elem_of_fmap. by exists tr. }
    rewrite Hev in Hp. apply elem_of_take in Hp as (i & Hp & _).
    apply list_elem_of_lookup_2 in Hp. unfold events in Hp.
    by apply list_elem_of_fmap in Hp as (z & [= -> _] & _).
  - intros Hn. split; [by apply Hall|].
    assert (Hall' : transitions (trace_of (check_transition moved))
                    = events ENTER entered).
    { rewrite Hev. apply take_ge. rewrite Hn. unfold events.
      by rewrite length_fmap. }
    split; [done|]. intros z Hzm.
    apply Hnames, list_elem_of_fmap in Hzm as (z' & Hname & Hz').
    assert (Hp : (ENTER, to_msg z') ∈ transitions (trace_of (check_transition moved))).
    { rewrite Hall'. unfold events. apply list_elem_of_fmap. by exists z'. }
    unfold transitions in Hp. apply list_elem_of_fmap in Hp as (tr & [= Ha Hzone] & Htr).
    exists tr. split; [done|]. split; [done|]. by rewrite <- Hzone, Hname.
Qed.

(** C9: the odometry callback and the pose-with-covariance callback do what
    [pose_cb] does on the plain pose with the same header and pose; the twist,
    the child frame and the covariances do not matter. *)
Theorem pose_sources_equivalent (s : Sys Env) :
  (∀ msg : PoseWithCovarianceStamped,
     pose_with_cov_cb msg s =
     pose_cb {| ps_header := pwc_header msg; ps_pose := pose (pwc_pose msg) |} s) ∧
  (∀ msg : Odometry,
     odom_cb msg s =
     pose_cb {| ps_header := odom_header msg; ps_pose := pose (odom_pose msg) |} s) ∧
  (∀ (h : Header) (p : Pose) cov cov',
     pose_with_cov_cb {| pwc_header := h;
                         pwc_pose := {| pose := p; covariance := cov |} |} s =
     pose_with_cov_cb {| pwc_header := h;
                         pwc_pose := {| pose := p; covariance := cov' |} |} s) ∧
  (∀ (h : Header) (p : Pose) child child' cov cov' tw tw',
     odom_cb {| odom_header := h; child_frame_id := child;
                odom_pose := {| pose := p; covariance := cov |};
                odom_twist := tw |} s =
     odom_cb {| odom_header := h; child_frame_id := child';
                odom_pose := {| pose := p; covariance := cov' |};
                odom_twist := tw' |} s).
Proof. done. Qed.

End pose_claims.

Lemma pose_cb_transition_witness :
  transitions (trace_of (pose_cb (Services0:=Example.up) (SetOrder0:=Example.order)
                           (Example.pose_at 12 12) in_A_and_B))
    = [(EXIT, to_msg Example.A)] ∧
  current_zones (self (state_of (pose_cb (Services0:=Example.up)
                                   (SetOrder0:=Example.order)
                                   (Example.pose_at 12 12) in_A_and_B)))
    = [Example.B].
Proof.
  assert (Hm : membership_of (Services0:=Example.up) in_A_and_B
                 (Example.pose_at 12 12) = inr [Example.B])
    by (vm_compute; reflexivity).
  destruct (pose_cb_transition (Services0:=Example.up) (SetOrder0:=Example.order)
              (Example.pose_at 12 12) in_A_and_B [Example.B] Hm ltac:(discriminate))
    as (Hself & _ & _ & _ & Hall & _).
  specialize (Hall ltac:(vm_compute; reflexivity)). destruct Hall as [_ Hev].
  split.
  - rewrite Hev. vm_compute. reflexivity.
  - rewrite Hself. reflexivity.
Defined.

(** C1, as stated, fails when the device registry is down: the pose at
    (12,12) follows one inside both squares, its membership is {B}, zone A is
    the one zone of previous − current, and no EXIT event is published for
    it (the state is updated all the same). *)
Lemma exit_event_lost_when_registry_down :
  let out := pose_cb (Services0:=Example.down) (SetOrder0:=Example.order)
               (Example.pose_at 12 12) in_A_and_B in
  current_zones (self in_A_and_B) = [Example.A; Example.B] ∧
  membership_of (Services0:=Example.down) in_A_and_B (Example.pose_at 12 12)
    = inr [Example.B] ∧
  set_difference (SetOrder:=Example.order)
    (current_zones (self in_A_and_B)) [Example.B] = [Example.A] ∧
  set_difference (SetOrder:=Example.order)
    [Example.B] (current_zones (self in_A_and_B)) = [] ∧
  current_zones (self (state_of out)) = [Example.B] ∧
  previous_zones (self (state_of out)) = [Example.A; Example.B] ∧
  result_of out = inl (ServiceException "peac/get_device_info") ∧
  published (trace_of out) = [] ∧
  transitions (trace_of out) ≠ events EXIT [Example.A] ++ events ENTER [].
Proof. vm_compute. repeat split; discriminate. Qed.

Lemma pose_cb_empty_membership_witness :
  pose_cb (Services0:=Example.up) (SetOrder0:=Example.order)
    (Example.pose_at 20 20) in_A_and_B
    = (inr tt, in_A_and_B, []).
Proof.
  refine (proj1 (pose_cb_empty_membership (Services0:=Example.up)
                   (SetOrder0:=Example.order)
                   (Example.pose_at 20 20) in_A_and_B _)).
  vm_compute. reflexivity.
Defined.

(** The first pose lies in both squares, in a runtime that iterates the set
    from B to A. *)
Lemma first_membership_enters_witness :
  transitions (trace_of (pose_cb (Services0:=Example.up)
                           (SetOrder0:=Example.runtime true)
                           (Example.pose_at 7 7) Example.start))
    = [(ENTER, to_msg Example.B); (ENTER, to_msg Example.A)].
Proof.
  destruct (first_membership_enters (Services0:=Example.up)
              (SetOrder0:=Example.runtime true)
              Example.zone_controls Example.zones 0%nat
              [Example.pose_at 20 20; Example.pose_at (-3) 4]
              (Example.pose_at 7 7) [Example.A; Example.B])
    as (Hbefore & _ & _ & _ & _ & _ & Hall & _).
  - repeat constructor.
  - vm_compute. reflexivity.
  - discriminate.
  - rewrite Hbefore in Hall. cbn [fst] in Hall.
    specialize (Hall ltac:(vm_compute; reflexivity)).
    destruct Hall as (_ & Hev & _).
    change {| self := init Example.zone_controls Example.zones; env := 0%nat |}
      with Example.start in Hev.
    rewrite Hev. vm_compute. reflexivity.
Defined.

(** C3, as stated, fails when the device registry is down: the first pose
    ever lies in zone A only, [previous_zones] is empty, and no ENTER event is
    published for A. *)
Lemma enter_event_lost_when_registry_down :
  let out := pose_cb (Services0:=Example.down) (SetOrder0:=Example.order)
               (Example.pose_at 2 2) Example.start in
  previous_zones (self Example.start) = [] ∧
  current_zones (self Example.start) = [] ∧
  membership_of (Services0:=Example.down) Example.start (Example.pose_at 2 2)
    = inr [Example.A] ∧
  current_zones (self (state_of out)) = [Example.A] ∧
  result_of out = inl (ServiceException "peac/get_device_info") ∧
  published (trace_of out) = [] ∧
  ¬ (∃ tr, tr ∈ published (trace_of out) ∧
           action tr = ENTER ∧ zone tr = to_msg Example.A).
Proof.
  vm_compute. repeat split. intros (tr & Htr & _). by apply elem_of_nil in Htr.
Qed.

(** Which events are out when a correlation raises follows the order of the
    runtime: with device 7 down, the first pose inside both squares publishes
    ENTER B and then raises when the set is iterated from B to A, and raises
    with nothing published when it is iterated from A to B. *)
Lemma events_before_a_failure_follow_the_order :
  let from_B := pose_cb (Services0:=lamp_down) (SetOrder0:=Example.runtime true)
                  (Example.pose_at 7 7) Example.start in
  let from_A := pose_cb (Services0:=lamp_down) (SetOrder0:=Example.runtime false)
                  (Example.pose_at 7 7) Example.start in
  (transitions (trace_of from_B) = [(ENTER, to_msg Example.B)] ∧
   result_of from_B = inl (ServiceException "peac/get_device_info")) ∧
  (transitions (trace_of from_A) = [] ∧
   result_of from_A = inl (ServiceException "peac/get_device_info")) ∧
  current_zones (self (state_of from_B)) = [Example.A; Example.B] ∧
  current_zones (self (state_of from_A)) = [Example.A; Example.B].
Proof. vm_compute. repeat split. Qed.

(** ** LocalizeInZone *)

Section localize_claims.
Context {Env : Type} `{!Services Env}.

(** C4 (as amended): the sentinel of [localize_in_zone] is the upper-case
    string NONE, for which one global localization request is dispatched; for
    any other input the zone is looked up by name, and one polygon request is
    dispatched whose polygon is the zone's vertices and whose frame is the
    zone's frame identifier, or the lookup raises [KeyError] and nothing is
    dispatched. *)
Theorem localize_in_zone_dispatch (zone_req : LocalizeInZoneRequest) (s : Sys Env) :
  let out := localize_in_zone zone_req s in
  self (state_of out) = self s ∧
  (lreq_zone zone_req = "NONE" →
     trace_of out = [GlobalLocalization (global_localization (env s)).1]) ∧
  (lreq_zone zone_req ≠ "NONE" →
     ∀ z, zone_dict (zones (self s)) !! lreq_zone zone_req = Some z →
       let req := {| poly := {| poly_header := {| seq := 0; stamp := 0;
                                   frame_id := geom_frame_id (gen z) |};
                                polygon := vertices z |} |} in
       trace_of out = [PolygonLocalization req (polygon_localization req (env s)).1]) ∧
  (lreq_zone zone_req ≠ "NONE" →
     zone_dict (zones (self s)) !! lreq_zone zone_req = None →
     out = (inl (KeyError (KStr (lreq_zone zone_req))), s, [])).
Proof.
  intros out. subst out. unfold localize_in_zone. rewrite bind_run.
  destruct (decide (lreq_zone zone_req = "NONE")) as [Hnone|Hname].
  - unfold call. destruct (global_localization (env s)) as [[e|[]] e'];
      (split; [done|]); (split; [done|]); split; done.
  - rewrite bind_run. cbn [get_self]. rewrite bind_run. unfold zones_getitem.
    destruct (zone_dict (zones (self s)) !! lreq_zone zone_req) as [z|] eqn:Hz.
    + unfold call, polygon_request, to_msg. cbn [mret M_ret msg_zone env self].
      destruct (polygon_localization _ (env s)) as [[e|[]] e'] eqn:Hcall;
        (split; [done|]); (split; [done|]); (split; [|done]);
        intros _ z' [= <-]; cbn; by rewrite Hcall.
    + cbn. split; [done|]. split; [done|]. split; [done|]. by destruct s.
Qed.

End localize_claims.

Lemma localize_in_zone_dispatch_witness :
  trace_of (localize_in_zone (Services0:=Example.up) {| lreq_zone := "NONE" |}
              Example.start)
    = [GlobalLocalization (inr tt)] ∧
  trace_of (localize_in_zone (Services0:=Example.up) {| lreq_zone := "A" |}
              Example.start)
    = [PolygonLocalization
         {| poly := {| poly_header := {| seq := 0; stamp := 0; frame_id := "map" |};
                       polygon := [(0, 0); (10, 0); (10, 10); (0, 10)] |} |}
         (inr tt)] ∧
  localize_in_zone (Services0:=Example.up) {| lreq_zone := "unknown" |}
    Example.start
    = (inl (KeyError (KStr "unknown")), Example.start, []).
Proof.
  split; [|split].
  - by apply (localize_in_zone_dispatch (Services0:=Example.up)
                {| lreq_zone := "NONE" |} Example.start).
  - refine (proj1 (proj2 (proj2 (localize_in_zone_dispatch (Services0:=Example.up)
              {| lreq_zone := "A" |} Example.start))) _ Example.A _);
      [discriminate | reflexivity].
  - refine (proj2 (proj2 (proj2 (localize_in_zone_dispatch (Services0:=Example.up)
              {| lreq_zone := "unknown" |} Example.start))) _ _);
      [discriminate | reflexivity].
Defined.

(** C4, as stated, fails on the lower-case input: no zone is called none in
    the example, so the lookup raises and no global localization request is
    dispatched. *)
Lemma lower_case_none_is_looked_up :
  let out := localize_in_zone (Services0:=Example.up) {| lreq_zone := "none" |}
               Example.start in
  result_of out = inl (KeyError (KStr "none")) ∧
  trace_of out = [] ∧
  ∀ r, GlobalLocalization r ∉ trace_of out.
Proof.
  vm_compute. repeat split. intros r Hr. by apply elem_of_nil in Hr.
Qed.

(** ** ListDevicesInZone *)

Section list_devices_claims.
Context {Env : Type} `{!Services Env}.

(** C5: within one invocation of [handle_list_devices] the registry calls are
    made for a sub-list of the zone's descriptors with pairwise different
    control ids, so there is at most one call per distinct control id; the
    cache is a local that starts empty at every invocation (the first
    descriptor of the zone is always asked for) and nothing of it is kept in
    the server object. *)
Theorem handle_list_devices_one_query_per_control (req : DevicesInZoneRequest)
    (s : Sys Env) :
  let descs := default [] (zone_controls (self s) !! req_zone req) in
  let out := handle_list_devices req s in
  (∃ ds : list ControlDesc,
      ds `sublist_of` descs ∧ NoDup (controlId <$> ds) ∧
      device_queries (trace_of out) = deviceId <$> ds ∧
      length (trace_of out) = length ds) ∧
  (length (device_queries (trace_of out)) ≤ size (control_ids (self s) req))%nat ∧
  self (state_of out) = self s ∧
  (∀ c rest, descs = c :: rest →
     ∃ t, trace_of out =
          GetDeviceInfo (deviceId c) (get_device_info (deviceId c) (env s)).1 :: t).
Proof.
  intros descs out. subst out.
  split; [|split; [apply handle_list_devices_query_bound|]].
  - rewrite handle_list_devices_unfold. fold descs.
    destruct (list_devices_loop_queries (req_zone req) descs ∅ [] s)
      as (ds & Hsub & Hnd & _ & Hq & Hlen).
    by exists ds.
  - rewrite handle_list_devices_unfold. fold descs.
    split; [apply list_devices_loop_self|].
    intros c rest ->. by apply list_devices_loop_first_query.
Qed.

(** C8: when a registry call of [handle_list_devices] fails, its exception is
    the result of the invocation, the failed call is the last call made (the
    calls before it were all answered: nothing is retried), the server object
    is what it was, and a later invocation runs as it would have run from the
    object before the failed one. *)
Theorem handle_list_devices_failure_propagates (req : DevicesInZoneRequest)
    (s : Sys Env) (d : DeviceId) (e : Exn) :
  let out := handle_list_devices req s in
  GetDeviceInfo d (inl e) ∈ trace_of out →
  result_of out = inl e ∧
  (∃ pre, trace_of out = pre ++ [GetDeviceInfo d (inl e)] ∧ Forall answered pre) ∧
  self (state_of out) = self s ∧
  (∀ req' env',
     handle_list_devices req' {| self := self (state_of out); env := env' |} =
     handle_list_devices req' {| self := self s; env := env' |}).
Proof.
  intros out Hin. subst out.
  assert (Hself := handle_list_devices_self req s).
  rewrite handle_list_devices_unfold in *.
  destruct (list_devices_loop_failure _ _ _ _ _ _ _ Hin) as [Hres Hpre].
  repeat split; try done.
  intros req' env'. by rewrite Hself.
Qed.

(** C10: for a zone name without descriptors, be it absent from the
    zone-control configuration or mapped to the empty list, the invocation
    returns the empty response, calls nothing and changes nothing. *)
Theorem handle_list_devices_no_descriptors (req : DevicesInZoneRequest)
    (s : Sys Env) :
  zone_controls (self s) !! req_zone req = None ∨
  zone_controls (self s) !! req_zone req = Some [] →
  handle_list_devices req s = (inr {| controls := [] |}, s, []).
Proof.
  intros Hnone. rewrite handle_list_devices_unfold.
  by destruct Hnone as [-> | ->].
Qed.

End list_devices_claims.

Lemma handle_list_devices_one_query_per_control_witness :
  let out := handle_list_devices (Services0:=Example.up) {| req_zone := "A" |}
               Example.start in
  device_queries (trace_of out) = [7] ∧
  (length (device_queries (trace_of out)) ≤ 2)%nat.
Proof.
  intros out. split; [reflexivity|].
  pose proof (handle_list_devices_one_query_per_control (Services0:=Example.up)
                {| req_zone := "A" |} Example.start) as (_ & Hle & _).
  etrans; [exact Hle|]. vm_compute. lia.
Defined.

Lemma handle_list_devices_failure_propagates_witness :
  result_of (handle_list_devices (Services0:=Example.down) {| req_zone := "A" |}
               Example.start)
    = inl (ServiceException "peac/get_device_info").
Proof.
  refine (proj1 (handle_list_devices_failure_propagates (Services0:=Example.down)
                   {| req_zone := "A" |} Example.start 7
                   (ServiceException "peac/get_device_info") _)).
  apply (list_elem_of_here _ []).
Defined.

Lemma handle_list_devices_no_descriptors_witness :
  handle_list_devices (Services0:=Example.down) {| req_zone := "hall" |}
    Example.start
  = (inr {| controls := [] |}, Example.start, []).
Proof.
  apply handle_list_devices_no_descriptors. left. reflexivity.
Defined.

Section two_calls_claim.
Context {Env : Type} `{!Services Env}.

(** C6 (as amended): two concurrent calls of [handle_list_devices] are
    serialized by the lock: whatever the schedule, once both have returned
    the lock is free and the results, the calls made and the final state are
    those of one invocation run to its end followed by the other.  Each
    invocation starts with its own empty cache, so at every point of every
    schedule the registry calls of the pair are bounded by the distinct
    control ids of the first zone plus those of the second: at most two
    calls, not one, per control id of a zone both ask for. *)
Theorem concurrent_list_devices_serialized (req0 req1 : DevicesInZoneRequest)
    (s0 : Sys Env) (sched : list nat) (r0 r1 : Res DevicesInZoneResponse) :
  let p := run [req0; req1] sched (pool0 [req0; req1] s0) in
  (length (device_queries (log p))
     ≤ size (control_ids (self s0) req0) + size (control_ids (self s0) req1))%nat ∧
  (threads p = [Done r0; Done r1] →
   lock p = None ∧
   ((∃ s1 t0 t1, handle_list_devices req0 s0 = (r0, s1, t0) ∧
                 handle_list_devices req1 s1 = (r1, shared p, t1) ∧
                 log p = t0 ++ t1) ∨
    (∃ s1 t1 t0, handle_list_devices req1 s0 = (r1, s1, t1) ∧
                 handle_list_devices req0 s1 = (r0, shared p, t0) ∧
                 log p = t1 ++ t0))).
Proof.
  intros p. split.
  { pose proof (lock_inv_bound [req0; req1] s0 p
                  (lock_inv_run [req0; req1] s0 sched _ (lock_inv_pool0 _ s0)))
      as Hle.
    cbn in Hle. unfold budget in Hle. cbn in Hle. lia. }
  intros Hthreads.
  destruct (lock_inv_run [req0; req1] s0 sched _ (lock_inv_pool0 _ s0))
    as (hist & sf & tf & Hnd & Hser & Hdone & Hlock).
  fold p in Hdone, Hlock. rewrite Hthreads in Hdone.
  assert (Hfree : lock p = None).
  { destruct (lock p) as [j|]; [|done].
    destruct Hlock as (req & todo & locals & _ & Hj & _).
    rewrite Hthreads in Hj. by destruct j as [|[|j]]. }
  rewrite Hfree in Hlock. destruct Hlock as (Hs & Hlog & _).
  assert (H0 : (0%nat, r0) ∈ hist) by (by apply Hdone).
  assert (H1 : (1%nat, r1) ∈ hist) by (by apply Hdone).
  assert (Hhist : hist = [(0%nat, r0); (1%nat, r1)] ∨
                  hist = [(1%nat, r1); (0%nat, r0)]).
  { assert (Hin : ∀ k r, (k, r) ∈ hist → (k = 0%nat ∧ r = r0) ∨ (k = 1%nat ∧ r = r1)).
    { intros k r Hk. apply Hdone in Hk. by apply two_done. }
    destruct hist as [|[k1 ra] [|[k2 rb] [|[k3 rc] hist]]].
    - by apply elem_of_nil in H0.
    - apply list_elem_of_singleton in H0. apply list_elem_of_singleton in H1.
      congruence.
    - cbn in Hnd. apply NoDup_cons in Hnd as [Hnot _].
      destruct (Hin k1 ra ltac:(left)) as [[-> ->]|[-> ->]];
        destruct (Hin k2 rb ltac:(right; left)) as [[-> ->]|[-> ->]];
        [ exfalso; apply Hnot; left | by left | by right
        | exfalso; apply Hnot; left ].
    - exfalso. cbn in Hnd.
      apply NoDup_cons in Hnd as [Hn1 Hnd].
      apply NoDup_cons in Hnd as [Hn2 _].
      destruct (Hin k1 ra ltac:(left)) as [[-> ->]|[-> ->]];
        destruct (Hin k2 rb ltac:(right; left)) as [[-> ->]|[-> ->]];
        destruct (Hin k3 rc ltac:(do 2 right; left)) as [[-> ->]|[-> ->]];
        first [ by (apply Hn1; left) | by (apply Hn1; right; left)
              | by (apply Hn2; left) ]. }
  split; [done|]. rewrite Hs, Hlog.
  destruct Hhist as [-> | ->]; cbn in Hser;
    destruct Hser as (reqa & s1 & ta & t2 & [= <-] & Ha & Hser & ->);
    destruct Hser as (reqb & s2 & tb & t3 & [= <-] & Hb & [-> ->] & ->);
    rewrite app_nil_r.
  - left. by exists s1, ta, tb.
  - right. by exists s1, ta, tb.
Qed.

End two_calls_claim.

Lemma concurrent_list_devices_serialized_witness :
  let reqB := {| req_zone := "B" |} in
  let p := run (Services0:=Example.up) [reqB; reqB]
             [0; 1; 0; 1; 0; 1; 1; 1]%nat (pool0 [reqB; reqB] Example.start) in
  lock p = None ∧ (length (device_queries (log p)) ≤ 2)%nat.
Proof.
  intros reqB p.
  pose (r := result_of (handle_list_devices (Services0:=Example.up) reqB
                          Example.start)).
  destruct (concurrent_list_devices_serialized (Services0:=Example.up) reqB reqB
              Example.start [0; 1; 0; 1; 0; 1; 1; 1]%nat r r)
    as (Hle & Hdone).
  destruct Hdone as (Hfree & _); [vm_compute; reflexivity|].
  split; [exact Hfree|]. etrans; [exact Hle|]. vm_compute. lia.
Defined.

(** C6, as stated, fails: two calls for zone B, whose one descriptor has
    control id 81, interleaved by the scheduler, both return, and the
    registry has been asked twice for device 8 across the pair. *)
Lemma two_calls_query_twice :
  let reqB := {| req_zone := "B" |} in
  let p := run (Services0:=Example.up) [reqB; reqB]
             [0; 1; 0; 1; 0; 1; 1; 1]%nat (pool0 [reqB; reqB] Example.start) in
  (∃ resp0 resp1, threads p = [Done (inr resp0); Done (inr resp1)]) ∧
  controlId <$> default [] (zone_controls (self Example.start) !! "B") = [81] ∧
  device_queries (log p) = [8; 8] ∧
  ¬ (length (device_queries (log p))
       ≤ size (control_ids (self Example.start) reqB))%nat.
Proof.
  intros reqB p. split; [|split; [|split]].
  - eexists _, _. vm_compute. reflexivity.
  - reflexivity.
  - vm_compute. reflexivity.
  - vm_compute. lia.
Qed.

(** ** matched_locations *)

Section correlation_claims.
Context {Env : Type} `{!Services Env}.

(** C7: when the zone's controls resolve to [devices], the location registry
    lists [locs] and the devices of each location [l] are [devs l],
    [get_peac_locations] returns exactly the locations of [locs] whose device
    ids meet the device ids of the zone's controls, in the order of [locs];
    the zone's device ids are those of its configured descriptors. *)
Theorem get_peac_locations_matches (zone : ZoneRef) (s s1 : Sys Env)
    (devices : DevicesInZoneResponse) (t1 : list Effect)
    (locs : list Location) (env2 : Env) (devs : Location → list Device) :
  handle_list_devices {| req_zone := zone_ref_name zone |} s = (inr devices, s1, t1) →
  list_locations (env s1) = (inr locs, env2) →
  (∀ l w, l ∈ locs → (list_devices (locationId l) w).1 = inr (devs l)) →
  let device_ids := zone_device_ids devices in
  let matches := filter (λ l, device_ids ∩ loc_device_ids (devs l) ≠ ∅) locs in
  result_of (get_peac_locations zone s) = inr matches ∧
  device_ids = list_to_set
    (deviceId <$> default [] (zone_controls (self s) !! zone_ref_name zone)) ∧
  matches `sublist_of` locs ∧
  (∀ l, l ∈ matches ↔
        l ∈ locs ∧ ∃ d, d ∈ device_ids ∧ d ∈ loc_device_ids (devs l)).
Proof.
  intros Hdev Hlocs Hdevs device_ids matches.
  split; [|split; [|split; [|intros l; split]]].
  - unfold get_peac_locations. rewrite bind_run, Hdev, bind_run.
    unfold call at 1. cbn [env self]. rewrite Hlocs.
    pose proof (match_locations_ok device_ids locs []
                  {| self := self s1; env := env2 |} devs Hdevs) as Hm.
    fold device_ids.
    destruct (match_locations device_ids locs [] _) as [[r s2] t2].
    unfold result_of in *. cbn in *. by rewrite Hm.
  - subst device_ids. unfold zone_device_ids. f_equal.
    rewrite handle_list_devices_unfold in Hdev.
    pose proof (list_devices_loop_device_ids (req_zone {| req_zone := zone_ref_name zone |})
                  (default [] (zone_controls (self s) !! zone_ref_name zone))
                  ∅ [] s devices) as Hids.
    cbn [req_zone] in *. rewrite Hdev in Hids. by apply Hids.
  - apply sublist_filter.
  - intros [Hne Hl]%list_elem_of_filter. split; [done|].
    apply set_choose_L in Hne as [d Hd]. exists d. set_solver.
  - intros [Hl (d & Hd1 & Hd2)]. apply list_elem_of_filter. split; [|done].
    intros Hempty. apply (not_elem_of_empty (C:=gset Z) d).
    rewrite <- Hempty. by apply elem_of_intersection.
Qed.

End correlation_claims.

Lemma get_peac_locations_matches_witness :
  result_of (get_peac_locations (Services0:=Example.up) (Resolved Example.A)
               Example.start)
    = inr [Example.kitchen].
Proof.
  pose (devs := λ l : Location,
          if decide (locationId l = 1)
          then [ {| dev_deviceId := 7 |}; {| dev_deviceId := 9 |} ]
          else [ {| dev_deviceId := 8 |} ]).
  destruct (handle_list_devices (Services0:=Example.up) {| req_zone := "A" |}
              Example.start) as [[[e|devices] s1] t1] eqn:Hrun;
    [discriminate Hrun|].
  injection Hrun as Hdevices Hs1 Ht1.
  refine (eq_trans (proj1 (get_peac_locations_matches (Services0:=Example.up)
            (Resolved Example.A) Example.start s1 devices t1
            [Example.kitchen; Example.office] (S (env s1)) devs _ _ _)) _).
  - rewrite <- Hdevices, <- Hs1, <- Ht1. reflexivity.
  - reflexivity.
  - intros l w Hl.
    apply elem_of_cons in Hl as [->|Hl]; [reflexivity|].
    apply list_elem_of_singleton in Hl as ->. reflexivity.
  - rewrite <- Hdevices. vm_compute. reflexivity.
Defined.

(** * Further properties of the server *)

(** ** The response and the failures of [handle_list_devices] *)

Section list_devices_more.
Context {Env : Type} `{!Services Env}.
Implicit Types (s : Sys Env) (cache : gmap Z DeviceControl)
  (zcs : list ZoneControl) (c : ControlDesc) (t : list Effect).

(** After an answer is cached, a control id is bound to the last control of
    the answer with that id, and to what it was bound to when there is none. *)
Lemma cache_controls_last cache info k :
  cache_controls cache info !! k =
  match last (filter (λ cc, cc_controlId cc = k) info) with
  | Some cc => Some cc
  | None => cache !! k
  end.
Proof.
  revert cache. induction info as [|cc info IH]; intros cache; [done|].
  change (cache_controls cache (cc :: info))
    with (cache_controls (<[cc_controlId cc := cc]> cache) info).
  rewrite IH, filter_cons. case_decide as Hk.
  - subst k. destruct (filter _ info) as [|cc' l]; cbn.
    + apply lookup_insert_eq.
    + destruct (last (cc' :: l)) eqn:Hl; [done|]. by apply last_None in Hl.
  - destruct (last (filter _ info)); [done|]. by apply lookup_insert_ne.
Qed.

Lemma last_elem_of {A} (l : list A) (x : A) : last l = Some x → x ∈ l.
Proof.
  rewrite last_Some. intros [l' ->]. apply elem_of_app. right. by left.
Qed.

Lemma cache_controls_Some cache info k cc :
  cache_controls cache info !! k = Some cc →
  (cc ∈ info ∧ cc_controlId cc = k) ∨ cache !! k = Some cc.
Proof.
  rewrite cache_controls_last.
  destruct (last (filter _ info)) as [cc'|] eqn:Hlast; [|by right].
  intros [= ->]. left. apply last_elem_of in Hlast.
  by apply list_elem_of_filter in Hlast as [? ?].
Qed.

Lemma cache_controls_None cache info k :
  cache_controls cache info !! k = None →
  (k ∉ reported_ids info) ∧ cache !! k = None.
Proof.
  rewrite cache_controls_last.
  destruct (last (filter _ info)) as [cc'|] eqn:Hlast; [done|].
  intros Hk. split; [|done]. intros Hin.
  apply list_elem_of_fmap in Hin as (cc & -> & Hcc).
  apply last_None in Hlast.
  assert (cc ∈ filter (λ cc0, cc_controlId cc0 = cc_controlId cc) info)
    as Hf by (by apply list_elem_of_filter).
  rewrite Hlast in Hf. by apply elem_of_nil in Hf.
Qed.

(** X1: after an answer of the registry is cached, a control id is bound
    to the last control of the answer with that id, wherever in the answer
    it stands, and keeps its binding when the answer has no control with
    that id.  So a control of the answer whose id no later control of the
    answer has is what its id is bound to; every control id the answer
    reports is bound to a control of the answer with that id (to the
    control itself when the ids of the answer are pairwise different). *)
Theorem cache_controls_lookup cache (info : list DeviceControl) :
  (∀ k, cache_controls cache info !! k =
        match last (filter (λ cc, cc_controlId cc = k) info) with
        | Some cc => Some cc
        | None => cache !! k
        end) ∧
  (∀ pre cc post, info = pre ++ cc :: post →
     cc_controlId cc ∉ reported_ids post →
     cache_controls cache info !! cc_controlId cc = Some cc) ∧
  (∀ cc, cc ∈ info →
     ∃ cc', cache_controls cache info !! cc_controlId cc = Some cc' ∧
            cc' ∈ info ∧ cc_controlId cc' = cc_controlId cc) ∧
  (∀ cc, cache_controls cache (info ++ [cc]) !! cc_controlId cc = Some cc) ∧
  (NoDup (reported_ids info) →
     ∀ cc, cc ∈ info → cache_controls cache info !! cc_controlId cc = Some cc) ∧
  (∀ k, k ∉ reported_ids info → cache_controls cache info !! k = cache !! k).
Proof.
  split; [intros k; apply cache_controls_last|].
  split.
  { intros pre cc post -> Hpost.
    rewrite cache_controls_last, filter_app, filter_cons.
    rewrite decide_True by done.
    assert (filter (λ cc0, cc_controlId cc0 = cc_controlId cc) post = []) as ->.
    { destruct (filter _ post) as [|cc' l] eqn:Hf; [done|].
      assert (Hcc' : cc' ∈ filter (λ cc0, cc_controlId cc0 = cc_controlId cc) post)
        by (rewrite Hf; left).
      apply list_elem_of_filter in Hcc' as [Heq Hcc'].
      destruct Hpost. apply list_elem_of_fmap. by exists cc'. }
    by rewrite last_snoc. }
  split; [|split; [|split]].
  - intros cc Hcc. rewrite cache_controls_last.
    destruct (last (filter _ info)) as [cc'|] eqn:Hlast.
    + exists cc'. split; [done|]. apply last_elem_of in Hlast.
      by apply list_elem_of_filter in Hlast as [? ?].
    + apply last_None in Hlast.
      assert (cc ∈ filter (λ cc0, cc_controlId cc0 = cc_controlId cc) info)
        as Hf by (by apply list_elem_of_filter).
      rewrite Hlast in Hf. by apply elem_of_nil in Hf.
  - intros cc. rewrite cache_controls_last, filter_app, filter_cons.
    rewrite decide_True by done. cbn. by rewrite last_snoc.
  - intros Hnd cc Hcc.
    rewrite cache_controls_last.
    destruct (last (filter _ info)) as [cc'|] eqn:Hlast.
    + apply last_elem_of in Hlast.
      apply list_elem_of_filter in Hlast as [Heq Hcc'].
      f_equal. symmetry.
      apply list_elem_of_lookup in Hcc as [i Hi].
      apply list_elem_of_lookup in Hcc' as [j Hj].
      assert (i = j) as ->; [|congruence].
      eapply NoDup_lookup; [exact Hnd| |]; unfold reported_ids;
        rewrite list_lookup_fmap; [by rewrite Hi|rewrite Hj; cbn; by f_equal].
    + apply last_None in Hlast.
      assert (cc ∈ filter (λ cc0, cc_controlId cc0 = cc_controlId cc) info)
        as Hf by (by apply list_elem_of_filter).
      rewrite Hlast in Hf. by apply elem_of_nil in Hf.
  - intros k Hk. rewrite cache_controls_last.
    destruct (last (filter _ info)) as [cc'|] eqn:Hlast; [|done].
    apply last_elem_of in Hlast.
    apply list_elem_of_filter in Hlast as [Heq Hcc'].
    exfalso. apply Hk. apply list_elem_of_fmap. by exists cc'.
Qed.

Ltac loop_cases zone c cache zcs s :=
  rewrite list_devices_loop_cons;
  destruct (list_devices_body_outcome zone c cache zcs s)
    as [cc Hc|e env' Hc Hcall|info env' Hc Hcall Hc'|info env' cc Hc Hcall Hc'].

Lemma zc_descriptor_zone_control zone c cc :
  zc_descriptor (zone_control zone c cc) = c ∧
  zc_zone (zone_control zone c cc) = zone.
Proof. by destruct c. Qed.

(** On success the loop has appended one zone control per descriptor. *)
Lemma list_devices_loop_response zone todo cache zcs s resp :
  result_of (list_devices_loop zone todo (cache, zcs) s) = inr resp →
  ∃ new, controls resp = zcs ++ new ∧ zc_descriptor <$> new = todo ∧
         Forall (λ zc, zc_zone zc = zone) new.
Proof.
  revert cache zcs s. induction todo as [|c todo IH]; intros cache zcs s.
  { cbn. intros [= <-]. exists []. cbn. by rewrite app_nil_r. }
  loop_cases zone c cache zcs s; try done.
  - specialize (IH cache (zcs ++ [zone_control zone c cc]) s).
    destruct (list_devices_loop zone todo _ s) as [[r s2] t2].
    unfold result_of in *. cbn [fst] in *. intros Hr.
    destruct (IH Hr) as (new & -> & Hdesc & Hzone).
    exists (zone_control zone c cc :: new).
    destruct (zc_descriptor_zone_control zone c cc) as [Hd Hz].
    rewrite <- app_assoc. split; [done|]. split; [|by constructor].
    cbn [fmap list_fmap]. by rewrite Hd, <- Hdesc.
  - specialize (IH (cache_controls cache info) (zcs ++ [zone_control zone c cc])
                  {| self := self s; env := env' |}).
    destruct (list_devices_loop zone todo _ _) as [[r s2] t2].
    unfold result_of in *. cbn [fst] in *. intros Hr.
    destruct (IH Hr) as (new & -> & Hdesc & Hzone).
    exists (zone_control zone c cc :: new).
    destruct (zc_descriptor_zone_control zone c cc) as [Hd Hz].
    rewrite <- app_assoc. split; [done|]. split; [|by constructor].
    cbn [fmap list_fmap]. by rewrite Hd, <- Hdesc.
Qed.

Lemma reported_weaken t t' k v : reported t k v → reported (t ++ t') k v.
Proof.
  intros (d & info & cc & Hin & Hrest). exists d, info, cc.
  split; [|done]. apply elem_of_app. by left.
Qed.

(** The values of the zone controls are values the registry answered with
    in the calls made so far. *)
Lemma list_devices_loop_values zone todo cache zcs s t0 resp :
  (∀ k cc, cache !! k = Some cc → reported t0 k (cc_numVal cc)) →
  Forall (λ zc, reported t0 (zc_controlId zc) (zc_numVal zc)) zcs →
  result_of (list_devices_loop zone todo (cache, zcs) s) = inr resp →
  Forall (λ zc, reported (t0 ++ trace_of (list_devices_loop zone todo (cache, zcs) s))
                         (zc_controlId zc) (zc_numVal zc))
         (controls resp).
Proof.
  revert cache zcs s t0. induction todo as [|c todo IH]; intros cache zcs s t0.
  { cbn. intros _ Hzcs [= <-]. cbn. by rewrite app_nil_r. }
  intros Hcache Hzcs. loop_cases zone c cache zcs s; try done.
  - specialize (IH cache (zcs ++ [zone_control zone c cc]) s t0 Hcache).
    destruct (list_devices_loop zone todo _ s) as [[r s2] t2].
    unfold result_of, trace_of in *. cbn [fst snd app] in *. intros Hr.
    apply IH; [|done]. apply Forall_app. split; [done|].
    constructor; [|done]. cbn. by apply Hcache.
  - set (t1 := t0 ++ [GetDeviceInfo (deviceId c) (inr info)]).
    assert (Hnew : ∀ k cc', cache_controls cache info !! k = Some cc' →
                            reported t1 k (cc_numVal cc')).
    { intros k cc' [[Hin Hk]|Hold]%cache_controls_Some.
      - exists (deviceId c), info, cc'. split; [|done].
        apply elem_of_app. right. by left.
      - by apply reported_weaken, Hcache. }
    specialize (IH (cache_controls cache info) (zcs ++ [zone_control zone c cc])
                  {| self := self s; env := env' |} t1 Hnew).
    destruct (list_devices_loop zone todo _ _) as [[r s2] t2].
    unfold result_of, trace_of in *. cbn [fst snd] in *. intros Hr.
    replace (t0 ++ [GetDeviceInfo (deviceId c) (inr info)] ++ t2) with (t1 ++ t2)
      by (unfold t1; by rewrite <- app_assoc).
    apply IH; [|done]. apply Forall_app. split.
    + eapply Forall_impl; [exact Hzcs|]. intros zc. apply reported_weaken.
    + constructor; [|done]. cbn. by apply Hnew.
Qed.

(** How the loop raises: its last call failed, or was answered without the
    control id the descriptor names. *)
Lemma list_devices_loop_raises zone todo cache zcs s ex :
  result_of (list_devices_loop zone todo (cache, zcs) s) = inl ex →
  ∃ pre d r,
    trace_of (list_devices_loop zone todo (cache, zcs) s)
      = pre ++ [GetDeviceInfo d r] ∧
    Forall answered pre ∧
    (r = inl ex ∨
     ∃ info c, r = inr info ∧ c ∈ todo ∧ deviceId c = d ∧
               ex = KeyError (KInt (controlId c)) ∧
               controlId c ∉ reported_ids info).
Proof.
  revert cache zcs s. induction todo as [|c todo IH]; intros cache zcs s; [done|].
  loop_cases zone c cache zcs s.
  - specialize (IH cache (zcs ++ [zone_control zone c cc]) s).
    destruct (list_devices_loop zone todo _ s) as [[r s2] t2].
    unfold result_of, trace_of in *. cbn [fst snd app] in *. intros Hr.
    destruct (IH Hr) as (pre & d & r' & -> & Hpre & Hwhy).
    exists pre, d, r'. split; [done|]. split; [done|].
    destruct Hwhy as [->|(info0 & c0 & -> & Hin0 & Hrest)]; [by left|right].
    exists info0, c0. split; [done|]. split; [by right|done].
  - intros [= <-]. exists [], (deviceId c), (inl e). split; [done|].
    split; [done|]. by left.
  - intros [= <-]. exists [], (deviceId c), (inr info). split; [done|].
    split; [done|]. right. exists info, c. split; [done|]. split; [by left|].
    split; [done|]. split; [done|]. by apply (cache_controls_None cache).
  - specialize (IH (cache_controls cache info) (zcs ++ [zone_control zone c cc])
                  {| self := self s; env := env' |}).
    destruct (list_devices_loop zone todo _ _) as [[r s2] t2].
    unfold result_of, trace_of in *. cbn [fst snd] in *. intros Hr.
    destruct (IH Hr) as (pre & d & r' & -> & Hpre & Hwhy).
    exists (GetDeviceInfo (deviceId c) (inr info) :: pre), d, r'.
    split; [done|]. split; [by constructor|].
    destruct Hwhy as [->|(info0 & c0 & -> & Hin0 & Hrest)]; [by left|right].
    exists info0, c0. split; [done|]. split; [by right|done].
Qed.

(** With every control id of the descriptors cached, the loop calls nothing. *)
Lemma list_devices_loop_cached zone todo cache zcs s :
  Forall (λ c, is_Some (cache !! controlId c)) todo →
  ∃ resp, list_devices_loop zone todo (cache, zcs) s = (inr resp, s, []).
Proof.
  revert zcs. induction todo as [|c todo IH]; intros zcs Hall.
  { by eexists. }
  apply Forall_cons in Hall as [[cc0 Hc0] Hall].
  loop_cases zone c cache zcs s; try congruence.
  destruct (IH (zcs ++ [zone_control zone c cc]) Hall) as [resp ->].
  by exists resp.
Qed.

End list_devices_more.

Section list_devices_properties.
Context {Env : Type} `{!Services Env}.

(** X2: when [handle_list_devices] returns, the response lists one zone
    control per descriptor configured for the zone, in the order of the
    configuration; each carries the requested zone name and the control id,
    device id and control name of its descriptor. *)
Theorem handle_list_devices_response (req : DevicesInZoneRequest) (s : Sys Env)
    (resp : DevicesInZoneResponse) :
  result_of (handle_list_devices req s) = inr resp →
  zc_descriptor <$> controls resp
    = default [] (zone_controls (self s) !! req_zone req) ∧
  Forall (λ zc, zc_zone zc = req_zone req) (controls resp) ∧
  length (controls resp)
    = length (default [] (zone_controls (self s) !! req_zone req)).
Proof.
  rewrite handle_list_devices_unfold. intros Hr.
  destruct (list_devices_loop_response _ _ _ _ _ _ Hr) as (new & Hnew & Hdesc & Hzone).
  cbn in Hnew. rewrite Hnew. split; [done|]. split; [done|].
  by rewrite <- Hdesc, length_fmap.
Qed.

(** X3: the value of every zone control of the response is a value the
    device registry answered with, for a control of that control id, in a
    call of this very invocation. *)
Theorem handle_list_devices_values_from_registry (req : DevicesInZoneRequest)
    (s : Sys Env) (resp : DevicesInZoneResponse) :
  result_of (handle_list_devices req s) = inr resp →
  Forall (λ zc, reported (trace_of (handle_list_devices req s))
                         (zc_controlId zc) (zc_numVal zc))
         (controls resp).
Proof.
  rewrite handle_list_devices_unfold. intros Hr.
  by apply (list_devices_loop_values _ _ ∅ [] s []).
Qed.

(** X4: [handle_list_devices] raises in two ways only.  Either its last call
    to the registry failed, and the exception is that of the call; or its
    last call was answered, for the device of a descriptor of the zone,
    without the control id of that descriptor, and the exception is the
    [KeyError] of that control id.  The calls before the last were all
    answered. *)
Theorem handle_list_devices_raises (req : DevicesInZoneRequest) (s : Sys Env)
    (e : Exn) :
  result_of (handle_list_devices req s) = inl e →
  ∃ pre d r,
    trace_of (handle_list_devices req s) = pre ++ [GetDeviceInfo d r] ∧
    Forall answered pre ∧
    (r = inl e ∨
     ∃ info c, r = inr info ∧
               c ∈ default [] (zone_controls (self s) !! req_zone req) ∧
               deviceId c = d ∧
               e = KeyError (KInt (controlId c)) ∧
               controlId c ∉ reported_ids info).
Proof.
  rewrite handle_list_devices_unfold. apply list_devices_loop_raises.
Qed.

(** X5: when the device of the zone's first descriptor answers with the
    control ids of all the descriptors of the zone, that one call is the only
    call of the invocation, which returns. *)
Theorem handle_list_devices_single_call (req : DevicesInZoneRequest) (s : Sys Env)
    (c : ControlDesc) (rest : list ControlDesc) (info : list DeviceControl)
    (env' : Env) :
  default [] (zone_controls (self s) !! req_zone req) = c :: rest →
  get_device_info (deviceId c) (env s) = (inr info, env') →
  Forall (λ c', controlId c' ∈ reported_ids info) (c :: rest) →
  ∃ resp, handle_list_devices req s =
          (inr resp, {| self := self s; env := env' |},
           [GetDeviceInfo (deviceId c) (inr info)]).
Proof.
  intros Hdescs Hcall Hall. rewrite handle_list_devices_unfold, Hdescs.
  assert (Hcached : Forall (λ c', is_Some (cache_controls ∅ info !! controlId c'))
                           (c :: rest)).
  { eapply Forall_impl; [exact Hall|]. intros c' Hc'. cbn in Hc'.
    destruct (cache_controls ∅ info !! controlId c') eqn:Hl; [eauto|].
    by apply cache_controls_None in Hl as [? _]. }
  rewrite list_devices_loop_cons.
  destruct (list_devices_body_outcome (req_zone req) c ∅ []  s)
    as [cc Hc|e env0 Hc Hcall0|info0 env0 Hc Hcall0 Hc'|info0 env0 cc Hc Hcall0 Hc'].
  - by rewrite lookup_empty in Hc.
  - congruence.
  - rewrite Hcall in Hcall0. injection Hcall0 as <- <-.
    apply Forall_cons in Hcached as [[? Hsome] _]. congruence.
  - rewrite Hcall in Hcall0. injection Hcall0 as <- <-.
    apply Forall_cons in Hcached as [_ Hcached].
    destruct (list_devices_loop_cached (req_zone req) rest (cache_controls ∅ info)
                ([] ++ [zone_control (req_zone req) c cc])
                {| self := self s; env := env' |} Hcached) as [resp ->].
    by exists resp.
Qed.

End list_devices_properties.

Lemma handle_list_devices_response_witness :
  zc_descriptor <$>
    controls {| controls :=
      [ {| zc_zone := "B"; zc_controlId := 81; zc_deviceId := 8;
           zc_name := "camera"; zc_numVal := 5 |} ] |}
  = default [] (zone_controls (self Example.start) !! "B").
Proof.
  refine (proj1 (handle_list_devices_response (Services0:=Example.up)
                   {| req_zone := "B" |} Example.start _ _)).
  vm_compute. reflexivity.
Defined.

Lemma handle_list_devices_values_from_registry_witness :
  Forall (λ zc, reported
            (trace_of (handle_list_devices (Services0:=Example.up)
                         {| req_zone := "B" |} Example.start))
            (zc_controlId zc) (zc_numVal zc))
    [ {| zc_zone := "B"; zc_controlId := 81; zc_deviceId := 8;
         zc_name := "camera"; zc_numVal := 5 |} ].
Proof.
  refine (handle_list_devices_values_from_registry (Services0:=Example.up)
            {| req_zone := "B" |} Example.start {| controls := _ |} _).
  vm_compute. reflexivity.
Defined.

Lemma handle_list_devices_raises_witness :
  ∃ pre d r,
    trace_of (handle_list_devices (Services0:=renumbered) {| req_zone := "B" |}
                Example.start) = pre ++ [GetDeviceInfo d r] ∧
    Forall answered pre.
Proof.
  destruct (handle_list_devices_raises (Services0:=renumbered)
              {| req_zone := "B" |} Example.start (KeyError (KInt 81)))
    as (pre & d & r & Htrace & Hpre & _).
  - vm_compute. reflexivity.
  - by exists pre, d, r.
Defined.

Lemma handle_list_devices_single_call_witness :
  ∃ resp, handle_list_devices (Services0:=Example.up) {| req_zone := "A" |}
            Example.start =
          (inr resp, {| self := Example.server; env := 1%nat |},
           [GetDeviceInfo 7 (inr [ {| cc_controlId := 71; cc_numVal := 1 |};
                                   {| cc_controlId := 72; cc_numVal := 0 |} ])]).
Proof.
  apply (handle_list_devices_single_call (Services0:=Example.up)
           {| req_zone := "A" |} Example.start
           {| controlId := 71; deviceId := 7; control_name := "lamp" |}
           [ {| controlId := 72; deviceId := 7; control_name := "blind" |};
             {| controlId := 71; deviceId := 7; control_name := "lamp again" |} ]
           [ {| cc_controlId := 71; cc_numVal := 1 |};
             {| cc_controlId := 72; cc_numVal := 0 |} ] 1%nat).
  - vm_compute. reflexivity.
  - reflexivity.
  - repeat constructor.
Defined.

(** ** What [get_peac_locations] asks and returns *)

Section correlation_more.
Context {Env : Type} `{!Services Env}.
Implicit Types (s : Sys Env) (t : list Effect) (ids : gset Z).

Lemma matched_in_cons ev t ids l : matched_in t ids l → matched_in (ev :: t) ids l.
Proof. intros (devs & Hin & Hne). exists devs. split; [by right|done]. Qed.

(** When the loop over the locations returns, it has asked for the devices of
    every location, once each and in order, and appended some of them. *)
Lemma match_locations_returns ids todo matched s ms :
  result_of (match_locations ids todo matched s) = inr ms →
  ∃ extra,
    ms = matched ++ extra ∧ extra `sublist_of` todo ∧
    Forall (matched_in (trace_of (match_locations ids todo matched s)) ids) extra ∧
    location_queries (trace_of (match_locations ids todo matched s))
      = locationId <$> todo ∧
    length (trace_of (match_locations ids todo matched s)) = length todo.
Proof.
  revert matched s. induction todo as [|l todo IH]; intros matched s.
  { cbn. intros [= <-]. exists []. by rewrite app_nil_r. }
  cbn [match_locations]. rewrite bind_run. unfold call.
  destruct (list_devices (locationId l) (env s)) as [[e|devs] e'] eqn:Hcall; [done|].
  match goal with |- context [match_locations ids todo ?m ?s'] =>
    specialize (IH m s');
    destruct (match_locations ids todo m s') as [[r2 s2] t2] end.
  unfold result_of, trace_of in *. cbn [fst snd] in *. intros Hr.
  destruct (IH Hr) as (extra & Hms & Hsub & Hall & Hq & Hlen). clear IH.
  case_decide as Hmatch.
  - exists (l :: extra). rewrite <- app_assoc in Hms. split; [done|].
    split; [by apply sublist_skip|]. split; [|split].
    + constructor.
      * exists devs. split; [by left|done].
      * eapply Forall_impl; [exact Hall|]. intros l'. apply matched_in_cons.
    + cbn. by rewrite <- Hq.
    + cbn. by rewrite Hlen.
  - exists extra. split; [done|]. split; [by apply sublist_cons|]. split; [|split].
    + eapply Forall_impl; [exact Hall|]. intros l'. apply matched_in_cons.
    + cbn. by rewrite <- Hq.
    + cbn. by rewrite Hlen.
Qed.

(** When the loop over the locations raises, the call for one location has
    failed; the locations before it were asked for and answered, those after
    it were not asked for. *)
Lemma match_locations_raises ids todo matched s e :
  result_of (match_locations ids todo matched s) = inl e →
  ∃ asked l rest t,
    todo = asked ++ l :: rest ∧
    trace_of (match_locations ids todo matched s)
      = t ++ [ListDevices (locationId l) (inl e)] ∧
    location_queries t = locationId <$> asked ∧ length t = length asked.
Proof.
  revert matched s. induction todo as [|l todo IH]; intros matched s; [done|].
  cbn [match_locations]. rewrite bind_run. unfold call.
  destruct (list_devices (locationId l) (env s)) as [[e0|devs] e'] eqn:Hcall.
  { intros [= <-]. by exists [], l, todo, []. }
  match goal with |- context [match_locations ids todo ?m ?s'] =>
    specialize (IH m s');
    destruct (match_locations ids todo m s') as [[r2 s2] t2] end.
  unfold result_of, trace_of in *. cbn [fst snd] in *. intros Hr.
  destruct (IH Hr) as (asked & l' & rest & t & -> & -> & Hq & Hlen).
  exists (l :: asked), l', rest, (ListDevices (locationId l) (inr devs) :: t).
  split; [done|]. split; [done|]. unfold location_queries in *. cbn.
  by rewrite Hq, Hlen.
Qed.

(** The ways [get_peac_locations] runs, by the outcome of the zone's
    controls, of the list of locations and of the loop over them. *)
Lemma get_peac_locations_run zone s :
  let name := zone_ref_name zone in
  let out := get_peac_locations zone s in
  match handle_list_devices {| req_zone := name |} s with
  | (inl e, s1, t1) => out = (inl e, s1, t1)
  | (inr devices, s1, t1) =>
      match list_locations (env s1) with
      | (inl e, e2) =>
          out = (inl e, {| self := self s1; env := e2 |}, t1 ++ [ListLocations (inl e)])
      | (inr locs, e2) =>
          ∃ r s3 t3,
            match_locations (zone_device_ids devices) locs []
              {| self := self s1; env := e2 |} = (r, s3, t3) ∧
            out = (r, s3, t1 ++ ListLocations (inr locs) :: t3)
      end
  end.
Proof.
  intros name out. subst out. unfold get_peac_locations, mbind, M_bind, call.
  fold name.
  destruct (handle_list_devices {| req_zone := name |} s) as [[[e|devices] s1] t1];
    [done|].
  destruct (list_locations (env s1)) as [[e|locs] e2]; [done|].
  destruct (match_locations _ locs [] _) as [[r s3] t3] eqn:Hm.
  by exists r, s3, t3.
Qed.

(** A location that is returned was listed by the registry in this call,
    and the registry has answered that a device configured for the zone is
    in it. *)
Lemma get_peac_locations_returns zone s ms :
  result_of (get_peac_locations zone s) = inr ms →
  ∃ locs,
    ListLocations (inr locs) ∈ trace_of (get_peac_locations zone s) ∧
    ms `sublist_of` locs ∧
    Forall (matched_in (trace_of (get_peac_locations zone s))
              (list_to_set (deviceId <$>
                 default [] (zone_controls (self s) !! zone_ref_name zone))))
           ms.
Proof.
  pose proof (get_peac_locations_run zone s) as Hrun. cbn zeta in Hrun.
  pose proof (handle_list_devices_unfold {| req_zone := zone_ref_name zone |} s)
    as Hunfold.
  destruct (handle_list_devices {| req_zone := zone_ref_name zone |} s)
    as [[[e|devices] s1] t1] eqn:Hdev; [by rewrite Hrun|].
  destruct (list_locations (env s1)) as [[e|locs] e2]; [by rewrite Hrun|].
  destruct Hrun as (r & s3 & t3 & Hm & ->).
  unfold result_of, trace_of. cbn [fst snd]. intros ->.
  pose proof (match_locations_returns (zone_device_ids devices) locs []
                {| self := self s1; env := e2 |} ms) as Hret.
  rewrite Hm in Hret. unfold result_of, trace_of in Hret. cbn [fst snd] in Hret.
  destruct (Hret eq_refl) as (extra & -> & Hsub & Hall & _). cbn [app].
  assert (Hids : zone_device_ids devices = list_to_set (deviceId <$>
            default [] (zone_controls (self s) !! zone_ref_name zone))).
  { unfold zone_device_ids. f_equal.
    pose proof (list_devices_loop_device_ids (zone_ref_name zone)
                  (default [] (zone_controls (self s) !! zone_ref_name zone))
                  ∅ [] s devices) as Hd.
    cbn [req_zone] in Hunfold. rewrite <- Hunfold in Hd. by apply Hd. }
  exists locs. split; [|split; [done|]].
  - apply elem_of_app. right. by left.
  - rewrite <- Hids. eapply Forall_impl; [exact Hall|].
    intros l (devs & Hin & Hne). exists devs. split; [|done].
    apply elem_of_app. right. by right.
Qed.

End correlation_more.

Section correlation_properties.
Context {Env : Type} `{!Services Env}.

(** X6: every location [get_peac_locations] returns was listed by the
    location registry in this call, in that order, and the registry, asked
    for its devices in this call, answered with a device id configured for
    the zone.  A zone without configured controls gets no location. *)
Theorem get_peac_locations_sound (zone : ZoneRef) (s : Sys Env)
    (ms : list Location) :
  let descs := default [] (zone_controls (self s) !! zone_ref_name zone) in
  let t := trace_of (get_peac_locations zone s) in
  result_of (get_peac_locations zone s) = inr ms →
  (∃ locs, ListLocations (inr locs) ∈ t ∧ ms `sublist_of` locs) ∧
  (∀ l, l ∈ ms →
     ∃ devs d, ListDevices (locationId l) (inr devs) ∈ t ∧
               d ∈ dev_deviceId <$> devs ∧ d ∈ deviceId <$> descs) ∧
  (descs = [] → ms = []).
Proof.
  intros descs t Hr. subst t.
  destruct (get_peac_locations_returns zone s ms Hr) as (locs & Hlocs & Hsub & Hall).
  fold descs in Hall. rewrite Forall_forall in Hall.
  assert (Hdev : ∀ l, l ∈ ms →
            ∃ devs d, ListDevices (locationId l) (inr devs)
                        ∈ trace_of (get_peac_locations zone s) ∧
                      d ∈ dev_deviceId <$> devs ∧ d ∈ deviceId <$> descs).
  { intros l Hl. destruct (Hall l Hl) as (devs & Hin & Hne).
    apply set_choose_L in Hne as [d Hd].
    apply elem_of_intersection in Hd as [Hd1 Hd2].
    exists devs, d. split; [done|].
    unfold loc_device_ids in Hd2.
    by rewrite elem_of_list_to_set in Hd1, Hd2. }
  split; [by exists locs|]. split; [done|].
  intros Hnone. destruct ms as [|l ms]; [done|].
  destruct (Hdev l ltac:(left)) as (devs & d & _ & _ & Hd).
  rewrite Hnone in Hd. by apply elem_of_nil in Hd.
Qed.

(** X7: when [get_peac_locations] returns, its calls are those of
    [handle_list_devices] for the zone, then one call for the list of
    locations, then one call for the devices of each listed location, in the
    order of the list, whether the location matches or not. *)
Theorem get_peac_locations_asks_every_location (zone : ZoneRef) (s : Sys Env)
    (ms : list Location) :
  result_of (get_peac_locations zone s) = inr ms →
  ∃ locs t3,
    trace_of (get_peac_locations zone s)
      = trace_of (handle_list_devices {| req_zone := zone_ref_name zone |} s)
        ++ ListLocations (inr locs) :: t3 ∧
    location_queries t3 = locationId <$> locs ∧
    length t3 = length locs.
Proof.
  pose proof (get_peac_locations_run zone s) as Hrun. cbn zeta in Hrun.
  destruct (handle_list_devices {| req_zone := zone_ref_name zone |} s)
    as [[[e|devices] s1] t1]; [by rewrite Hrun|].
  destruct (list_locations (env s1)) as [[e|locs] e2]; [by rewrite Hrun|].
  destruct Hrun as (r & s3 & t3 & Hm & ->).
  unfold result_of, trace_of. cbn [fst snd]. intros ->.
  pose proof (match_locations_returns (zone_device_ids devices) locs []
                {| self := self s1; env := e2 |} ms) as Hret.
  rewrite Hm in Hret. unfold result_of, trace_of in Hret. cbn [fst snd] in Hret.
  destruct (Hret eq_refl) as (extra & _ & _ & _ & Hq & Hlen).
  by exists locs, t3.
Qed.

(** X8: [get_peac_locations] raises in three ways only: [handle_list_devices]
    raised, and the location registry was not asked anything; or the call
    for the list of locations failed; or the call for the devices of one
    listed location failed, after the locations before it were asked for, and
    the locations after it were not asked for.  No partial list is returned. *)
Theorem get_peac_locations_raises (zone : ZoneRef) (s : Sys Env) (e : Exn) :
  let devices := handle_list_devices {| req_zone := zone_ref_name zone |} s in
  let t := trace_of (get_peac_locations zone s) in
  result_of (get_peac_locations zone s) = inl e →
  (result_of devices = inl e ∧ t = trace_of devices) ∨
  (t = trace_of devices ++ [ListLocations (inl e)]) ∨
  (∃ asked l rest t3,
     t = trace_of devices
         ++ ListLocations (inr (asked ++ l :: rest))
         :: t3 ++ [ListDevices (locationId l) (inl e)] ∧
     location_queries t3 = locationId <$> asked ∧ length t3 = length asked).
Proof.
  intros devices t. subst devices t.
  pose proof (get_peac_locations_run zone s) as Hrun. cbn zeta in Hrun.
  destruct (handle_list_devices {| req_zone := zone_ref_name zone |} s)
    as [[[e1|devices] s1] t1].
  { rewrite Hrun. intros [= ->]. by left. }
  destruct (list_locations (env s1)) as [[e1|locs] e2].
  { rewrite Hrun. intros [= ->]. right. by left. }
  destruct Hrun as (r & s3 & t3 & Hm & ->).
  unfold result_of, trace_of. cbn [fst snd]. intros ->.
  pose proof (match_locations_raises (zone_device_ids devices) locs []
                {| self := self s1; env := e2 |} e) as Hraise.
  rewrite Hm in Hraise. unfold result_of, trace_of in Hraise. cbn [fst snd] in Hraise.
  destruct (Hraise eq_refl) as (asked & l & rest & t & -> & -> & Hq & Hlen).
  right. right. by exists asked, l, rest, t.
Qed.

End correlation_properties.

Lemma get_peac_locations_sound_witness :
  ∃ locs, ListLocations (inr locs)
            ∈ trace_of (get_peac_locations (Services0:=Example.up)
                          (ByName "A") Example.start) ∧
          [Example.kitchen] `sublist_of` locs.
Proof.
  refine (proj1 (get_peac_locations_sound (Services0:=Example.up) (ByName "A")
                   Example.start [Example.kitchen] _)).
  vm_compute. reflexivity.
Defined.

Lemma get_peac_locations_asks_every_location_witness :
  ∃ locs t3,
    trace_of (get_peac_locations (Services0:=Example.up) (ByName "A") Example.start)
      = trace_of (handle_list_devices (Services0:=Example.up)
                    {| req_zone := "A" |} Example.start)
        ++ ListLocations (inr locs) :: t3 ∧
    location_queries t3 = locationId <$> locs ∧
    length t3 = length locs.
Proof.
  refine (get_peac_locations_asks_every_location (Services0:=Example.up)
            (ByName "A") Example.start [Example.kitchen] _).
  vm_compute. reflexivity.
Defined.

Lemma get_peac_locations_raises_witness :
  let devices := handle_list_devices (Services0:=office_down)
                   {| req_zone := "A" |} Example.start in
  let t := trace_of (get_peac_locations (Services0:=office_down)
                       (ByName "A") Example.start) in
  (result_of devices = inl (ServiceException "peac/list_devices") ∧
   t = trace_of devices) ∨
  (t = trace_of devices ++ [ListLocations (inl (ServiceException "peac/list_devices"))]) ∨
  (∃ asked l rest t3,
     t = trace_of devices
         ++ ListLocations (inr (asked ++ l :: rest))
         :: t3 ++ [ListDevices (locationId l)
                     (inl (ServiceException "peac/list_devices"))] ∧
     location_queries t3 = locationId <$> asked ∧ length t3 = length asked).
Proof.
  refine (get_peac_locations_raises (Services0:=office_down) (ByName "A")
            Example.start (ServiceException "peac/list_devices") _).
  vm_compute. reflexivity.
Defined.

(** ** [get_zone_locations] and the service handlers *)

Section zone_locations.
Context {Env : Type} `{!Services Env}.
Implicit Types (s : Sys Env) (t : list Effect) (resp : GetZoneLocationsResponse).

Lemma append_locations_spec (z : Zone) (locs : list Location) resp :
  append_locations z locs resp =
  {| resp_zones := resp_zones resp ++ replicate (length locs) (to_msg z);
     resp_locations := resp_locations resp ++ locs |}.
Proof.
  revert resp. induction locs as [|l locs IH]; intros resp.
  { destruct resp. cbn. by rewrite !app_nil_r. }
  change (append_locations z (l :: locs) resp)
    with (append_locations z locs
            {| resp_zones := resp_zones resp ++ [to_msg z];
               resp_locations := resp_locations resp ++ [l] |}).
  rewrite IH. cbn. by rewrite <- !app_assoc.
Qed.

Lemma pair_of_weaken me t t' items items' p :
  (∀ x, x ∈ items → x ∈ items') →
  (∀ ev, ev ∈ t → ev ∈ t') →
  pair_of me t items p → pair_of me t' items' p.
Proof.
  intros Hitems Ht (k & z & Hin & Hz & Hdescs & locs & Hlocs & Hl).
  exists k, z. split; [auto|]. split; [done|]. split; [done|].
  exists locs. split; [auto|done].
Qed.

Lemma quiet_zone_locations_loop todo resp : quiet (zone_locations_loop todo resp).
Proof.
  revert resp. induction todo as [|[k z] todo IH]; intros resp; [by intros s|].
  cbn [zone_locations_loop]. apply quiet_bind; [apply quiet_get_peac_locations|done].
Qed.

Lemma quiet_get_zone_locations req : quiet (get_zone_locations req).
Proof.
  intros s. unfold get_zone_locations. rewrite bind_run. cbn [get_self].
  destruct (quiet_zone_locations_loop (map_to_list (zone_dict (zones (self s))))
              {| resp_zones := []; resp_locations := [] |} s) as [Hs Hp].
  by destruct (zone_locations_loop _ _ s) as [[r s2] t2].
Qed.

Lemma quiet_localize_in_zone zone_req : quiet (localize_in_zone zone_req).
Proof.
  unfold localize_in_zone. apply quiet_bind; [|intros; apply quiet_ret].
  case_decide; [by apply quiet_call|].
  intros s. rewrite bind_run. cbn [get_self]. rewrite bind_run.
  unfold zones_getitem.
  destruct (zone_dict (zones (self s)) !! lreq_zone zone_req) as [z|]; [|done].
  cbn [mret M_ret]. unfold call.
  by destruct (polygon_localization _ (env s)) as [r e'].
Qed.

(** When the loop over the zones returns, the two lists have grown by the
    same number of entries, each pair being a zone still to do with a
    location listed for it. *)
Lemma zone_locations_loop_returns todo resp s resp' :
  result_of (zone_locations_loop todo resp s) = inr resp' →
  length (resp_zones resp) = length (resp_locations resp) →
  length (resp_zones resp') = length (resp_locations resp') ∧
  ∃ new, zone_pairs resp' = zone_pairs resp ++ new ∧
         Forall (pair_of (self s) (trace_of (zone_locations_loop todo resp s)) todo)
                new.
Proof.
  revert resp s. induction todo as [|[k z] todo IH]; intros resp s.
  { cbn. intros [= <-] Hlen. split; [done|]. exists []. by rewrite app_nil_r. }
  cbn [zone_locations_loop]. rewrite bind_run.
  destruct (quiet_get_peac_locations (ByName k) s) as [Hself _].
  pose proof (get_peac_locations_returns (ByName k) s) as Hret.
  destruct (get_peac_locations (ByName k) s) as [[[e|locs] s1] t1]; [done|].
  unfold result_of, state_of, trace_of in *. cbn [fst snd] in *.
  destruct (Hret locs eq_refl) as (locs0 & Hlisted & Hsub & Hmatched). clear Hret.
  specialize (IH (append_locations z locs resp) s1).
  destruct (zone_locations_loop todo _ s1) as [[r s2] t2].
  cbn [fst snd] in *. intros Hr Hlen.
  rewrite append_locations_spec in IH. cbn [resp_zones resp_locations] in IH.
  destruct (IH Hr) as (Hlen' & new & Hpairs & Hnew).
  { by rewrite !length_app, length_replicate, Hlen. }
  split; [done|].
  exists (zip (replicate (length locs) (to_msg z)) locs ++ new).
  split.
  - rewrite Hpairs. unfold zone_pairs at 1. cbn [resp_zones resp_locations].
    rewrite zip_with_app by done. by rewrite <- app_assoc.
  - apply Forall_app. split.
    + apply Forall_forall. intros [zm l] Hin.
      pose proof (elem_of_zip_l _ _ _ _ Hin) as Hzm.
      apply elem_of_replicate_inv in Hzm. subst zm.
      apply elem_of_zip_r in Hin.
      exists k, z. split; [by left|]. split; [done|]. split.
      * intros Hnone. rewrite Forall_forall in Hmatched.
        destruct (Hmatched l Hin) as (devs & _ & Hne). cbn in Hne.
        rewrite Hnone in Hne. apply Hne. cbn.
        apply set_eq. intros d. rewrite elem_of_intersection.
        split; [by intros [?%not_elem_of_empty _]|by intros ?%not_elem_of_empty].
      * exists locs0. split; [apply elem_of_app; by left|].
        by eapply sublist_submseteq, elem_of_submseteq in Hsub.
    + eapply Forall_impl; [exact Hnew|]. intros p. rewrite Hself.
      apply pair_of_weaken; [by right|]. intros ev Hev. apply elem_of_app. by right.
Qed.

(** X9: when [get_zone_locations] returns, the two lists of the response
    have the same length, and read in parallel they pair the message of a
    zone of the zone set, which has configured controls, with a location
    the registry listed during the request. *)
Theorem get_zone_locations_pairs (req : GetZoneLocationsRequest) (s : Sys Env)
    (resp : GetZoneLocationsResponse) :
  result_of (get_zone_locations req s) = inr resp →
  length (resp_zones resp) = length (resp_locations resp) ∧
  Forall (λ p, ∃ k z,
            zone_dict (zones (self s)) !! k = Some z ∧ p.1 = to_msg z ∧
            default [] (zone_controls (self s) !! k) ≠ [] ∧
            ∃ locs, ListLocations (inr locs)
                      ∈ trace_of (get_zone_locations req s) ∧ p.2 ∈ locs)
         (zone_pairs resp).
Proof.
  unfold get_zone_locations. rewrite bind_run. cbn [get_self].
  pose proof (zone_locations_loop_returns
                (map_to_list (zone_dict (zones (self s))))
                {| resp_zones := []; resp_locations := [] |} s resp) as Hloop.
  destruct (zone_locations_loop _ _ s) as [[r s2] t2].
  unfold result_of, trace_of in *. cbn [fst snd app] in *. intros Hr.
  destruct (Hloop Hr eq_refl) as (Hlen & new & Hpairs & Hnew).
  split; [done|]. rewrite Hpairs. cbn [app].
  eapply Forall_impl; [exact Hnew|].
  intros p (k & z & Hin & Hrest). exists k, z.
  split; [by apply elem_of_map_to_list|done].
Qed.

(** X10: the service handlers leave the server object as it is, the
    transition state included, and publish nothing, whether they return or
    raise: only the pose callbacks move the engine. *)
Theorem handlers_leave_the_engine_alone (s : Sys Env) :
  (∀ req, self (state_of (handle_list_devices req s)) = self s ∧
          published (trace_of (handle_list_devices req s)) = []) ∧
  (∀ req, self (state_of (get_zone_locations req s)) = self s ∧
          published (trace_of (get_zone_locations req s)) = []) ∧
  (∀ req, self (state_of (localize_in_zone req s)) = self s ∧
          published (trace_of (localize_in_zone req s)) = []) ∧
  (∀ zone, self (state_of (get_peac_locations zone s)) = self s ∧
           published (trace_of (get_peac_locations zone s)) = []).
Proof.
  split; [|split; [|split]]; intros x.
  - apply quiet_handle_list_devices.
  - apply quiet_get_zone_locations.
  - apply quiet_localize_in_zone.
  - apply quiet_get_peac_locations.
Qed.

End zone_locations.

Lemma get_zone_locations_pairs_witness :
  length (resp_zones {| resp_zones := [to_msg Example.A; to_msg Example.B];
                        resp_locations := [Example.kitchen; Example.office] |})
  = length (resp_locations {| resp_zones := [to_msg Example.A; to_msg Example.B];
                              resp_locations := [Example.kitchen; Example.office] |}).
Proof.
  refine (proj1 (get_zone_locations_pairs (Services0:=Example.up)
                   mkGetZoneLocationsRequest Example.start _ _)).
  vm_compute. reflexivity.
Defined.

(** ** The transition state over many poses *)

Section engine_properties.
Context {Env : Type} `{!Services Env} {SetOrder0 : SetOrder}.
Implicit Types (s : Sys Env) (msg : PoseStamped).

Lemma set_difference_same (xs ys : list Zone) :
  (list_to_set xs : gset Zone) = list_to_set ys → set_difference xs ys = [].
Proof.
  intros Heq. apply set_difference_none. intros k.
  rewrite !list_elem_of_fmap. intros (z & -> & Hz). exists z. split; [done|].
  apply (elem_of_list_to_set (C:=gset Zone)). rewrite <- Heq.
  by apply elem_of_list_to_set.
Qed.

(** A pose callback leaves the server object as it is or moves it to a
    non-empty membership. *)
Lemma pose_cb_self msg s :
  self (state_of (pose_cb msg s)) = self s ∨
  ∃ m, m ≠ [] ∧ self (state_of (pose_cb msg s)) = moved_to (self s) m.
Proof.
  destruct (membership_of s msg) as [e|m] eqn:Hm.
  - left. by rewrite (pose_cb_dropped msg s e Hm).
  - destruct m as [|z m].
    + left. by rewrite (pose_cb_nowhere msg s Hm).
    + right. exists (z :: m). split; [done|].
      rewrite (pose_cb_somewhere msg s (z :: m) Hm) by done.
      by destruct (check_transition_run
                     {| self := moved_to (self s) (z :: m); env := env s |})
        as [-> _].
Qed.

(** X11: a pose whose membership holds the same zones as [current_zones]
    is silent: [pose_cb] returns, having set [previous_zones] to the old
    [current_zones] and [current_zones] to the membership, without a call to
    any registry and without a message.  So an event lost to a failing
    registry is not made up for by the next pose in the same zones. *)
Theorem pose_cb_same_zones_silent (msg : PoseStamped) (s : Sys Env)
    (membership : list Zone) :
  membership_of s msg = inr membership → membership ≠ [] →
  (list_to_set membership : gset Zone) = list_to_set (current_zones (self s)) →
  pose_cb msg s =
  (inr tt, {| self := moved_to (self s) membership; env := env s |}, []).
Proof.
  intros Hm Hne Hsame. rewrite (pose_cb_somewhere msg s membership Hm Hne).
  unfold check_transition. rewrite bind_run. cbn [get_self self moved_to
    current_zones previous_zones].
  rewrite bool_decide_eq_true_2 by done.
  rewrite (set_difference_same membership (current_zones (self s))) by done.
  by rewrite (set_difference_same (current_zones (self s)) membership) by done.
Qed.

(** X12: whatever poses are delivered, with whatever outcome, the
    configuration of the server (zone controls, zone set, the time stamp set
    at start) stays what it was; [current_zones], once non-empty, never
    becomes empty again; and [previous_zones] is non-empty only if
    [current_zones] is. *)
Theorem deliver_keeps_invariants (msgs : list PoseStamped) (s : Sys Env) :
  let s' := (deliver msgs s).1 in
  zone_controls (self s') = zone_controls (self s) ∧
  zones (self s') = zones (self s) ∧
  last_transition_time (self s') = last_transition_time (self s) ∧
  (current_zones (self s) ≠ [] → current_zones (self s') ≠ []) ∧
  ((previous_zones (self s) ≠ [] → current_zones (self s) ≠ []) →
   previous_zones (self s') ≠ [] → current_zones (self s') ≠ []).
Proof.
  revert s. induction msgs as [|msg msgs IH]; intros s; [done|].
  cbn [deliver]. destruct (pose_cb_self msg s) as [Hself|(m & Hm & Hself)];
    destruct (pose_cb msg s) as [[r s1] t1]; unfold state_of in Hself;
    cbn [fst snd] in Hself; specialize (IH s1);
    destruct (deliver msgs s1) as [s2 t2]; cbn [fst] in *;
    destruct IH as (Hc & Hz & Ht & Hcur & Hprev); rewrite Hself in *.
  - done.
  - cbn [moved_to zone_controls zones last_transition_time current_zones
         previous_zones] in *.
    split; [done|]. split; [done|]. split; [done|]. split; auto.
Qed.

End engine_properties.

Lemma pose_cb_same_zones_silent_witness :
  pose_cb (Services0:=Example.down) (SetOrder0:=Example.order)
    (Example.pose_at 8 8) in_A_and_B =
  (inr tt,
   {| self := moved_to (self in_A_and_B) [Example.A; Example.B];
      env := env in_A_and_B |}, []).
Proof.
  apply (pose_cb_same_zones_silent (Services0:=Example.down)
           (SetOrder0:=Example.order) (Example.pose_at 8 8) in_A_and_B [Example.A; Example.B]).
  - vm_compute. reflexivity.
  - discriminate.
  - assert (current_zones (self in_A_and_B) = [Example.A; Example.B]) as ->
      by (vm_compute; reflexivity).
    reflexivity.
Defined.

Lemma deliver_keeps_invariants_witness :
  current_zones
    (self (deliver (Services0:=Example.down) (SetOrder0:=Example.order)
             [Example.pose_at 20 20; Example.pose_at 12 12] in_A_and_B).1) ≠ [].
Proof.
  assert (Hcur : current_zones (self in_A_and_B) ≠ [])
    by (vm_compute; discriminate).
  exact (proj1 (proj2 (proj2 (proj2 (deliver_keeps_invariants
           (Services0:=Example.down) (SetOrder0:=Example.order)
           [Example.pose_at 20 20; Example.pose_at 12 12] in_A_and_B)))) Hcur).
Defined.

(** ** The outcome of [localize_in_zone] *)

Section localize_properties.
Context {Env : Type} `{!Services Env}.

(** X13: a call of [localize_in_zone] dispatches at most one localization
    request and never both kinds.  If the zone lookup raises, nothing is
    dispatched and the outside world is as it was; otherwise exactly one
    request is dispatched, the acknowledgment is returned when the service
    answers and the exception of the service is raised when it fails. *)
Theorem localize_in_zone_outcome (zone_req : LocalizeInZoneRequest) (s : Sys Env) :
  let out := localize_in_zone zone_req s in
  (out = (inl (KeyError (KStr (lreq_zone zone_req))), s, []) ∧
   lreq_zone zone_req ≠ "NONE" ∧
   zone_dict (zones (self s)) !! lreq_zone zone_req = None) ∨
  (∃ ev (r : Res unit),
     trace_of out = [ev] ∧
     (ev = GlobalLocalization r ∨ ∃ req, ev = PolygonLocalization req r) ∧
     result_of out = match r with
                     | inl e => inl e
                     | inr _ => inr mkLocalizeInZoneResponse
                     end).
Proof.
  intros out. subst out. unfold localize_in_zone. rewrite bind_run.
  destruct (decide (lreq_zone zone_req = "NONE")) as [Hnone|Hname].
  - right. unfold call.
    destruct (global_localization (env s)) as [[e|[]] e'];
      eexists _, _; (split; [done|]); (split; [by left|done]).
  - rewrite bind_run. cbn [get_self]. rewrite bind_run. unfold zones_getitem.
    destruct (zone_dict (zones (self s)) !! lreq_zone zone_req) as [z|] eqn:Hz.
    + right. cbn [mret M_ret]. unfold call.
      destruct (polygon_localization _ (env s)) as [[e|[]] e'];
        eexists _, _; (split; [done|]); (split; [right; by eexists|done]).
    + left. cbn. by destruct s.
Qed.

End localize_properties.

(** ** Any number of callers under the lock *)

Section lock_properties.
Context {Env : Type} `{!Services Env}.
Variable reqs : list DevicesInZoneRequest.
Implicit Types (p : Pool Env) (i j k : nat).

Lemma step_length i p : length (threads (step reqs i p)) = length (threads p).
Proof.
  unfold step. destruct (reqs !! i) as [req|]; [|done].
  destruct (threads p !! i) as [[|[|c todo] locals|r]|]; try done.
  - destruct (lock p); [done|]. apply length_insert.
  - apply length_insert.
  - destruct (list_devices_body _ _ _ _) as [[[e|locals'] s1] t1];
      apply length_insert.
Qed.

Lemma run_length sched p :
  length (threads (run reqs sched p)) = length (threads p).
Proof.
  revert p. induction sched as [|i sched IH]; intros p; [done|].
  cbn. unfold run in IH. by rewrite IH, step_length.
Qed.

(** A thread that has returned does not move any more. *)
Lemma run_done n i p r :
  threads p !! i = Some (Done r) → run reqs (replicate n i) p = p.
Proof.
  intros Hth. induction n as [|n IH]; [done|]. cbn.
  replace (step reqs i p) with p; [exact IH|].
  unfold step. rewrite Hth. by destruct (reqs !! i).
Qed.

(** A thread inside the loop, scheduled often enough, goes through the rest
    of the loop as [list_devices_loop] does and leaves the lock free. *)
Lemma in_loop_runs i req todo locals n p :
  reqs !! i = Some req →
  threads p !! i = Some (InLoop todo locals) →
  (S (length todo) ≤ n)%nat →
  run reqs (replicate n i) p =
  {| threads := <[i := Done (result_of (list_devices_loop (req_zone req) todo
                                          locals (shared p)))]> (threads p);
     lock := None;
     shared := state_of (list_devices_loop (req_zone req) todo locals (shared p));
     log := log p ++ trace_of (list_devices_loop (req_zone req) todo locals
                                 (shared p)) |}.
Proof.
  intros Hreq. revert locals n p.
  induction todo as [|c todo IH]; intros locals n p Hth Hn;
    (destruct n as [|n]; [cbn in Hn; lia|]);
    change (run reqs (replicate (S n) i) p)
      with (run reqs (replicate n i) (step reqs i p));
    unfold step at 1; rewrite Hreq, Hth.
  - rewrite (run_done n i _ (inr {| controls := locals.2 |})).
    + cbn. by rewrite app_nil_r.
    + cbn. apply list_lookup_insert_eq. by eapply lookup_lt_Some.
  - rewrite list_devices_loop_cons.
    destruct (list_devices_body (req_zone req) c locals (shared p))
      as [[[e|locals'] s1] t1].
    + rewrite (run_done n i _ (inl e)); [done|].
      cbn. apply list_lookup_insert_eq. by eapply lookup_lt_Some.
    + rewrite (IH locals' n); cbn [threads lock shared log].
      * destruct (list_devices_loop (req_zone req) todo locals' s1)
          as [[r s2] t2].
        unfold result_of, state_of, trace_of. cbn [fst snd].
        by rewrite list_insert_insert_eq, app_assoc.
      * apply list_lookup_insert_eq. by eapply lookup_lt_Some.
      * cbn in Hn. lia.
Qed.

(** X14: at every point of every schedule at most one thread is inside the
    loop of [handle_list_devices]; that thread holds the lock, and the lock
    is held by no one else: it is free again whenever no thread is inside,
    also after an invocation that raised. *)
Theorem lock_mutual_exclusion (s0 : Sys Env) (sched : list nat) :
  let p := run reqs sched (pool0 reqs s0) in
  (∀ i j todo locals todo' locals',
     threads p !! i = Some (InLoop todo locals) →
     threads p !! j = Some (InLoop todo' locals') → i = j) ∧
  (∀ i todo locals, threads p !! i = Some (InLoop todo locals) → lock p = Some i) ∧
  (∀ j, lock p = Some j → ∃ todo locals, threads p !! j = Some (InLoop todo locals)).
Proof.
  intros p.
  destruct (lock_inv_run reqs s0 sched _ (lock_inv_pool0 reqs s0))
    as (hist & sf & tf & _ & _ & _ & Hlock).
  fold p in Hlock. destruct (lock p) as [j|].
  - destruct Hlock as (req & todo & locals & _ & Hj & Huniq & _).
    split; [|split].
    + intros i1 i2 ???? H1 H2. apply Huniq in H1, H2. congruence.
    + intros i ?? Hi. f_equal. symmetry. by eapply Huniq.
    + intros ? [= <-]. by exists todo, locals.
  - destruct Hlock as (_ & _ & Hnone). split; [|split].
    + intros i ????? Hi. by apply Hnone in Hi.
    + intros i ?? Hi. by apply Hnone in Hi.
    + done.
Qed.

(** X15: for any number of concurrent calls of [handle_list_devices] and any
    schedule, the registry calls made so far are at most the sum, over the
    calls, of the distinct control ids of the zone asked for; and once all
    the calls have returned, the lock is free and the results, the registry
    calls and the final state are those of the invocations run one after
    the other, each to its end, in some order of the callers. *)
Theorem calls_serialized (s0 : Sys Env) (sched : list nat) :
  let p := run reqs sched (pool0 reqs s0) in
  (length (device_queries (log p))
     ≤ sum_list_with (budget (self s0) reqs) (List.seq 0 (length reqs)))%nat ∧
  (Forall (λ pc, ∃ r, pc = Done r) (threads p) →
   lock p = None ∧
   ∃ hist, hist.*1 ≡ₚ List.seq 0 (length reqs) ∧
           serialized reqs hist s0 (shared p) (log p) ∧
           ∀ i r, threads p !! i = Some (Done r) ↔ (i, r) ∈ hist).
Proof.
  intros p.
  pose proof (lock_inv_run reqs s0 sched _ (lock_inv_pool0 reqs s0)) as Hinv.
  fold p in Hinv. split; [by apply lock_inv_bound|]. intros Hall.
  destruct Hinv as (hist & sf & tf & Hnd & Hser & Hdone & Hlock).
  assert (Hfree : lock p = None).
  { destruct (lock p) as [j|]; [|done].
    destruct Hlock as (req & todo & locals & _ & Hj & _).
    rewrite Forall_forall in Hall.
    destruct (Hall (InLoop todo locals)) as [r Hr]; [|done].
    apply list_elem_of_lookup. by exists j. }
  split; [done|]. rewrite Hfree in Hlock. destruct Hlock as (<- & <- & _).
  exists hist. split; [|done].
  destruct (serialized_bound reqs hist s0 _ _ Hser) as (_ & Hvalid & _).
  assert (Hlen : length (threads p) = length reqs).
  { subst p. rewrite run_length. apply length_replicate. }
  apply NoDup_Permutation; [done|apply NoDup_seq|].
  intros i. rewrite elem_of_seq. split.
  - intros Hi. rewrite Forall_forall in Hvalid.
    apply Hvalid, lookup_lt_is_Some_1 in Hi. lia.
  - intros [_ Hi]. cbn in Hi. rewrite <- Hlen in Hi.
    apply lookup_lt_is_Some_2 in Hi as [pc Hpc].
    rewrite Forall_forall in Hall.
    destruct (Hall pc) as [r ->]; [apply list_elem_of_lookup; by exists i|].
    apply Hdone in Hpc. apply list_elem_of_fmap. by exists (i, r).
Qed.

(** X16: a caller that finds the lock free and is scheduled two steps more
    than the zone has descriptors returns: its result, the registry calls it
    made and the state it leaves are those of [handle_list_devices], the
    other threads are where they were, and the lock is free again, whether
    the invocation returned or raised. *)
Theorem caller_runs_to_completion (p : Pool Env) (i : nat)
    (req : DevicesInZoneRequest) :
  reqs !! i = Some req →
  threads p !! i = Some AtLock →
  lock p = None →
  let descs := default [] (zone_controls (self (shared p)) !! req_zone req) in
  let out := handle_list_devices req (shared p) in
  run reqs (replicate (2 + length descs) i) p =
  {| threads := <[i := Done (result_of out)]> (threads p);
     lock := None; shared := state_of out; log := log p ++ trace_of out |}.
Proof.
  intros Hreq Hth Hfree descs out. subst out.
  rewrite handle_list_devices_unfold. fold descs.
  change (run reqs (replicate (2 + length descs) i) p)
    with (run reqs (replicate (1 + length descs) i) (step reqs i p)).
  unfold step at 1. rewrite Hreq, Hth, Hfree. fold descs.
  rewrite (in_loop_runs i req descs (∅, []) (1 + length descs)); cbn [threads lock shared log].
  - by rewrite list_insert_insert_eq.
  - done.
  - apply list_lookup_insert_eq. by eapply lookup_lt_Some.
  - lia.
Qed.

End lock_properties.

Lemma calls_serialized_witness :
  let reqs := [ {| req_zone := "A" |}; {| req_zone := "B" |};
                {| req_zone := "hall" |} ] in
  let p := run (Services0:=Example.up) reqs
             [2; 0; 1; 2; 0; 1; 0; 0; 0; 1; 0; 2; 1; 1; 1]%nat
             (pool0 reqs Example.start) in
  lock p = None ∧ (length (device_queries (log p)) ≤ 3)%nat.
Proof.
  intros reqs p.
  destruct (calls_serialized (Services0:=Example.up) reqs Example.start
              [2; 0; 1; 2; 0; 1; 0; 0; 0; 1; 0; 2; 1; 1; 1]%nat) as [Hle Hdone].
  fold p in Hle, Hdone. destruct Hdone as [Hfree _].
  { vm_compute. repeat (constructor; [by eexists|]). constructor. }
  split; [exact Hfree|]. etrans; [exact Hle|]. vm_compute. lia.
Defined.

Lemma caller_runs_to_completion_witness :
  let reqs := [ {| req_zone := "A" |} ] in
  lock (run (Services0:=Example.up) reqs (replicate 5 0%nat)
          (pool0 reqs Example.start)) = None.
Proof.
  intros reqs.
  pose proof (caller_runs_to_completion (Services0:=Example.up) reqs
                (pool0 reqs Example.start) 0 {| req_zone := "A" |}
                eq_refl eq_refl eq_refl) as Hrun.
  cbn zeta in Hrun.
  assert (Hlen : length (default [] (zone_controls (self (shared
                   (pool0 (Env:=nat) reqs Example.start))) !! "A")) = 3%nat)
    by (vm_compute; reflexivity).
  cbn [req_zone] in Hrun. rewrite Hlen in Hrun.
  change (2 + 3)%nat with 5%nat in Hrun. by rewrite Hrun.
Defined.

(** ** The locations carried by the transition messages *)

Section payload.
Context {Env : Type} `{!Services Env} {SetOrder0 : SetOrder}.
Implicit Types (s : Sys Env) (t : list Effect) (z : Zone).

Lemma payload_sound_weaken me t t' tr :
  (∀ ev, ev ∈ t → ev ∈ t') → payload_sound me t tr → payload_sound me t' tr.
Proof.
  intros Hsub Hsound. unfold payload_sound in *.
  eapply Forall_impl; [exact Hsound|].
  intros l [(locs & Hlocs & Hl) (devs & Hdevs & Hne)]. split.
  - exists locs. split; [auto|done].
  - exists devs. split; [auto|done].
Qed.

Lemma transition_msg_payload a z s :
  Forall (payload_sound (self s) (trace_of (transition_msg a z s)))
         (published (trace_of (transition_msg a z s))).
Proof.
  unfold transition_msg. rewrite bind_run.
  destruct (quiet_get_peac_locations (Resolved z) s) as [_ Hp].
  pose proof (get_peac_locations_returns (Resolved z) s) as Hret.
  destruct (get_peac_locations (Resolved z) s) as [[[e|locs] s1] t1];
    unfold result_of, trace_of in *; cbn [fst snd] in *.
  { by rewrite Hp. }
  destruct (Hret locs eq_refl) as (locs0 & Hlisted & Hsub & Hmatched).
  unfold publish. cbn [fst snd]. rewrite published_app, Hp. cbn [app].
  change (published [Publish {| action := a; zone := to_msg z;
                                peac_locations := locs |}])
    with [{| action := a; zone := to_msg z; peac_locations := locs |}].
  constructor; [|done]. unfold payload_sound. cbn [peac_locations zone to_msg msg_name].
  apply Forall_forall. intros l Hl. rewrite Forall_forall in Hmatched.
  split.
  - exists locs0. split; [apply elem_of_app; by left|].
    by eapply sublist_submseteq, elem_of_submseteq in Hsub.
  - destruct (Hmatched l Hl) as (devs & Hdevs & Hne). exists devs.
    split; [apply elem_of_app; by left|done].
Qed.

Lemma for_each_payload a zs s :
  Forall (payload_sound (self s) (trace_of (for_each zs (transition_msg a) s)))
         (published (trace_of (for_each zs (transition_msg a) s))).
Proof.
  revert s. induction zs as [|z zs IH]; intros s; [done|].
  cbn [for_each]. rewrite bind_run.
  pose proof (transition_msg_payload a z s) as Hhd.
  destruct (transition_msg_run a z s) as [Hself _].
  destruct (transition_msg a z s) as [[[e|[]] s1] t1];
    unfold state_of, trace_of in *; cbn [fst snd] in *; [done|].
  specialize (IH s1). destruct (for_each zs (transition_msg a) s1) as [[r s2] t2].
  cbn [fst snd] in *. rewrite published_app. apply Forall_app. split.
  - eapply Forall_impl; [exact Hhd|]. intros tr. apply payload_sound_weaken.
    intros ev Hev. apply elem_of_app. by left.
  - rewrite Hself in IH. eapply Forall_impl; [exact IH|]. intros tr.
    apply payload_sound_weaken. intros ev Hev. apply elem_of_app. by right.
Qed.

Lemma check_transition_payload s :
  Forall (payload_sound (self s) (trace_of (check_transition s)))
         (published (trace_of (check_transition s))).
Proof.
  unfold check_transition. rewrite bind_run. cbn [get_self].
  case_bool_decide; [|done]. rewrite bind_run.
  set (exited := set_difference (previous_zones (self s)) (current_zones (self s))).
  set (entered := set_difference (current_zones (self s)) (previous_zones (self s))).
  pose proof (for_each_payload EXIT exited s) as Hex.
  destruct (for_each_transitions EXIT exited s) as [Hself _].
  destruct (for_each exited (transition_msg EXIT) s) as [[[e|[]] s1] t1];
    unfold state_of, trace_of in *; cbn [fst snd app] in *; [done|].
  pose proof (for_each_payload ENTER entered s1) as Hen.
  destruct (for_each entered (transition_msg ENTER) s1) as [[r s2] t2].
  cbn [fst snd] in *. rewrite published_app. apply Forall_app. split.
  - eapply Forall_impl; [exact Hex|]. intros tr. apply payload_sound_weaken.
    intros ev Hev. apply elem_of_app. by left.
  - rewrite Hself in Hen. eapply Forall_impl; [exact Hen|]. intros tr.
    apply payload_sound_weaken. intros ev Hev. apply elem_of_app. by right.
Qed.

(** X17: every location carried by a message [pose_cb] publishes was
    listed by the location registry during that very callback, and the
    registry, asked for its devices during the callback, answered with a
    device configured for the zone of the message: no location of an
    earlier callback is carried over. *)
Theorem pose_cb_payload (msg : PoseStamped) (s : Sys Env) :
  Forall (payload_sound (self s) (trace_of (pose_cb msg s)))
         (published (trace_of (pose_cb msg s))).
Proof.
  destruct (membership_of s msg) as [e|m] eqn:Hm.
  { by rewrite (pose_cb_dropped msg s e Hm). }
  destruct m as [|z m].
  { by rewrite (pose_cb_nowhere msg s Hm). }
  rewrite (pose_cb_somewhere msg s (z :: m) Hm) by done.
  apply (check_transition_payload
           {| self := moved_to (self s) (z :: m); env := env s |}).
Qed.

End payload.
